(** * The just-in-time queue of package [queue] (queue/jit.go)

    A shallow embedding of [jitQueue] and a proof development about it.

    The Go code is a shared object protected by the mutex [mu]; every
    access to [q.queue] and [q.changed] happens inside a critical section.
    The embedding therefore has one transition per critical section, and
    the producers, the consumer and the clock are interleaved by a list of
    events.  The blocking points of [next] (the receive on [changed] and the
    [select]) are control points of the consumer; an event that is not yet
    enabled there leaves the machine [blocked].

    What the embedding takes from the Go runtime:
    - [nextMu] lets one call of [Next] at a time into [next]; the calls that
      wait for it are not part of the state;
    - a receive from a channel succeeds once the channel is closed, and
      [close] panics on a nil or closed channel;
    - [time.After(d)] delivers no earlier than [d] after it was called, on a
      clock that never runs backwards;
    - a [JITItem] handed to [Add] is a non-nil pointer and its [Time()]
      always gives the same answer. *)

From Stdlib Require Import ZArith List Bool Lia Permutation Sorted.
Import ListNotations.

Module JIT.

Local Open Scope Z_scope.

(** ** Values *)

(** [time.Time], read on the monotonic clock, in nanoseconds. *)
Definition instant := Z.

(** [t.Before(u)], [t.After(u)] and [time.Until(t)] at clock reading [now]. *)
Definition Before (t u : instant) : bool := t <? u.
Definition After (t u : instant) : bool := u <? t.
Definition Until (now t : instant) : Z := t - now.

(** [type item interface{}]: a payload is the nil interface or some value
    the queue never looks into, here a handle. *)
Inductive item :=
| nil
| opaque (v : nat).

(** The dynamic value of a [JITItem] is a pointer: either a [*jitItem]
    allocated by [Schedule], or a pointer owned by the caller of [Add]. *)
Inductive ref :=
| jitItem_at (a : nat)
| extern_at (a : nat).

Definition ref_eqb (r r' : ref) : bool :=
  match r, r' with
  | jitItem_at a, jitItem_at b => Nat.eqb a b
  | extern_at a, extern_at b => Nat.eqb a b
  | _, _ => false
  end.

(** A non-nil [JITItem]: where it lives, what [Time()] answers, and what
    [getItem()] answers when the dynamic type implements [hasItem]
    ([None] when it does not). *)
Record JITItem := mkJITItem {
  self : ref;
  Time : instant;
  getItem : option item
}.

(** [a == b] on two [JITItem] interface values. *)
Definition same (a b : JITItem) : bool := ref_eqb (self a) (self b).

(** [&jitItem{item: i, time: t}] placed at address [a]. *)
Definition jitItem (a : nat) (i : item) (t : instant) : JITItem :=
  {| self := jitItem_at a; Time := t; getItem := Some i |}.

(** What [Next] hands out, an [interface{}]: a payload or the entry itself. *)
Inductive any :=
| from_item (i : item)
| from_JITItem (i : JITItem).

(** ** Panics and fallible steps *)

Inductive panic :=
| close_of_nil_channel
| close_of_closed_channel
| index_out_of_range
| slice_bounds_out_of_range.

Inductive res (A : Type) :=
| Ok (a : A)
| Panic (p : panic).
Arguments Ok {A} a.
Arguments Panic {A} p.

Definition bind {A B : Type} (r : res A) (k : A -> res B) : res B :=
  match r with
  | Ok a => k a
  | Panic p => Panic p
  end.

Notation "x <- r ;; k" := (bind r (fun x => k))
  (at level 61, r at next level, right associativity).

(** [s[k]] and [s[1:]] on a slice. *)
Definition index {A : Type} (l : list A) (k : nat) : res A :=
  match nth_error l k with
  | Some x => Ok x
  | None => Panic index_out_of_range
  end.

Definition slice_from_1 {A : Type} (l : list A) : res (list A) :=
  match l with
  | [] => Panic slice_bounds_out_of_range
  | _ :: tl => Ok tl
  end.

(** ** sort.Sort on a [jitSlice] *)

(** [jitSlice.Less] *)
Definition Less (a b : JITItem) : bool := Before (Time a) (Time b).

Definition le_time (a b : JITItem) : Prop := Time a <= Time b.

(** [sort.Sort] belongs to Go's library.  Its contract: the result is a
    rearrangement of the input in which no element is [Less] than its
    predecessor; equal elements may come out in any order. *)
Record Sorter := mkSorter {
  sort_Sort : list JITItem -> list JITItem;
  sort_perm : forall l, Permutation l (sort_Sort l);
  sort_sorted : forall l, Sorted le_time (sort_Sort l)
}.

(** The insertion sort that [sort.Sort] runs on short slices: each element
    moves left while it is [Less] than its left neighbour. *)
Fixpoint insert (x : JITItem) (l : list JITItem) : list JITItem :=
  match l with
  | [] => [x]
  | y :: l' => if Less x y then x :: y :: l' else y :: insert x l'
  end.

Definition insertionSort (l : list JITItem) : list JITItem :=
  fold_left (fun acc x => insert x acc) l [].

(** ** The queue and the runtime around it *)

Definition chan := nat.

(** Control points of one call of [next]. *)
Inductive pc :=
| at_loop (i : option JITItem)
    (* line 120, before q.mu.Lock(); [i] is the loop-carried variable *)
| at_recv (changed : chan)
    (* line 139, blocked in <-changed with i == nil *)
| at_select (i : JITItem) (changed : chan) (timer : instant).
    (* line 143, blocked in select; the timer fires at [timer] *)

Record state := mkState {
  queue : list JITItem;      (* q.queue *)
  changed : option chan;     (* q.changed, None is the nil channel *)
  nextMu : option pc;        (* None: unlocked; Some: a Next() call holds it *)
  closed : list chan;        (* the channels closed so far, latest first *)
  made : nat;                (* channels made so far *)
  allocs : nat;              (* jitItem structs allocated so far *)
  clock : instant            (* time.Now() *)
}.

Definition set_queue (l : list JITItem) (s : state) : state :=
  mkState l (changed s) (nextMu s) (closed s) (made s) (allocs s) (clock s).
Definition set_changed (c : option chan) (s : state) : state :=
  mkState (queue s) c (nextMu s) (closed s) (made s) (allocs s) (clock s).
Definition set_nextMu (p : option pc) (s : state) : state :=
  mkState (queue s) (changed s) p (closed s) (made s) (allocs s) (clock s).
Definition set_closed (l : list chan) (s : state) : state :=
  mkState (queue s) (changed s) (nextMu s) l (made s) (allocs s) (clock s).
Definition set_made (n : nat) (s : state) : state :=
  mkState (queue s) (changed s) (nextMu s) (closed s) n (allocs s) (clock s).
Definition set_allocs (n : nat) (s : state) : state :=
  mkState (queue s) (changed s) (nextMu s) (closed s) (made s) n (clock s).
Definition set_clock (t : instant) (s : state) : state :=
  mkState (queue s) (changed s) (nextMu s) (closed s) (made s) (allocs s) t.

Definition is_closed (c : chan) (s : state) : bool :=
  existsb (Nat.eqb c) (closed s).

(** [close(c)] *)
Definition close (c : option chan) (s : state) : res state :=
  match c with
  | None => Panic close_of_nil_channel
  | Some c =>
      if is_closed c s then Panic close_of_closed_channel
      else Ok (set_closed (c :: closed s) s)
  end.

(** [q.changed = make(chan struct{})] *)
Definition make_changed (s : state) : state :=
  set_made (S (made s)) (set_changed (Some (made s)) s).

(** Lines 97-98: the notification closes the current channel and installs
    a fresh one. *)
Definition notify (s : state) : res state :=
  s <- close (changed s) s ;;
  Ok (make_changed s).

(** [NewJIT()], called when the clock reads [now]. *)
Definition NewJIT (now : instant) : state :=
  {| queue := []; changed := Some 0%nat; nextMu := None;
     closed := []; made := 1; allocs := 0; clock := now |}.

(** [jitQueue.isEmpty] *)
Definition isEmpty (s : state) : bool := Nat.eqb (length (queue s)) 0.

(** [jitQueue.add], lines 77-99. *)
Definition add (srt : Sorter) (i : JITItem) (s : state) : res state :=
  match changed s with
  | None => Ok s
  | Some _ =>
      let s := set_queue (queue s ++ [i]) s in
      first <- index (queue s) 0 ;;
      let n := length (queue s) in
      chronological <-
        (if Nat.ltb 1 n then
           last <- index (queue s) (n - 1) ;;
           prev <- index (queue s) (n - 2) ;;
           Ok (After (Time last) (Time prev))
         else Ok false) ;;
      if chronological then Ok s
      else
        let s := set_queue (sort_Sort srt (queue s)) s in
        unchanged <-
          (if Nat.ltb 1 (length (queue s)) then
             head <- index (queue s) 0 ;;
             Ok (same first head)
           else Ok false) ;;
        if unchanged then Ok s
        else notify s
  end.

(** [jitQueue.Add]: [add] under [q.mu]. *)
Definition Add (srt : Sorter) (i : JITItem) (s : state) : res state := add srt i s.

(** [jitQueue.Schedule] *)
Definition Schedule (srt : Sorter) (i : item) (t : instant) (s : state) : res state :=
  Add srt (jitItem (allocs s) i t) (set_allocs (S (allocs s)) s).

(** [jitQueue.IsEmpty] *)
Definition IsEmpty (s : state) : bool := isEmpty s.

(** [jitQueue.Destroy] *)
Definition Destroy (s : state) : res state :=
  let s := set_queue [] s in
  s <- close (changed s) s ;;
  Ok (set_changed None s).

(** ** The consumer *)

(** How one critical section of [next] ends: the call returns, or the loop
    goes on from another control point. *)
Inductive exit :=
| ret (i : option JITItem) (s : state)
| goto (p : pc) (s : state).

(** Lines 138-146: after the unlock, with [i] and the captured channel. *)
Definition wait (i : option JITItem) (ch : chan) (s : state) : pc :=
  match i with
  | None => at_recv ch
  | Some i => at_select i ch (clock s + Until (clock s) (Time i))
  end.

(** Lines 121-136 and the dispatch of lines 138-146. *)
Definition loop_body (i : option JITItem) (s : state) : res exit :=
  match changed s with
  | None => Ok (ret None s)
  | Some ch =>
      if negb (isEmpty s) then
        i <- index (queue s) 0 ;;
        if Before (Time i) (clock s) then
          tl <- slice_from_1 (queue s) ;;
          Ok (ret (Some i) (set_queue tl s))
        else Ok (goto (wait (Some i) ch s) s)
      else Ok (goto (wait i ch s) s)
  end.

(** Lines 147-154: the timer case of the select. *)
Definition timer_case (i : JITItem) (s : state) : res exit :=
  if negb (isEmpty s) then
    head <- index (queue s) 0 ;;
    if same i head then
      tl <- slice_from_1 (queue s) ;;
      Ok (ret (Some i) (set_queue tl s))
    else Ok (goto (at_loop (Some i)) s)
  else Ok (goto (at_loop (Some i)) s).

(** Lines 109-115 of [Next]: what the caller receives for what [next]
    returned. *)
Definition unwrap (i : JITItem) : any :=
  match getItem i with
  | Some p => from_item p
  | None => from_JITItem i
  end.

Definition Next_value (next : option JITItem) : any :=
  match next with
  | None => from_item nil
  | Some i => unwrap i
  end.

(** ** The machine *)

Inductive event :=
| call_Add (i : JITItem)
| call_Schedule (i : item) (t : instant)
| call_IsEmpty
| call_Destroy
| call_Next        (* a consumer acquires nextMu and enters next() *)
| run_loop         (* the consumer runs lines 121-136 *)
| recv_changed     (* the consumer's receive on the captured channel succeeds *)
| recv_timer       (* the consumer's timer fires and it runs lines 147-154 *)
| tick (d : nat).  (* d nanoseconds pass *)

Inductive output :=
| IsEmpty_returns (b : bool)
| Next_returns (next : option JITItem) (v : any).

Inductive outcome :=
| blocked
| panics (p : panic)
| steps (s : state) (o : list output).

Definition of_res (r : res state) : outcome :=
  match r with
  | Ok s => steps s []
  | Panic p => panics p
  end.

(** The return of [next] releases [nextMu] and [Next] unwraps the entry. *)
Definition of_exit (r : res exit) : outcome :=
  match r with
  | Ok (ret i s) => steps (set_nextMu None s) [Next_returns i (Next_value i)]
  | Ok (goto p s) => steps (set_nextMu (Some p) s) []
  | Panic p => panics p
  end.

Definition step (srt : Sorter) (s : state) (e : event) : outcome :=
  match e with
  | call_Add i => of_res (Add srt i s)
  | call_Schedule i t => of_res (Schedule srt i t s)
  | call_IsEmpty => steps s [IsEmpty_returns (IsEmpty s)]
  | call_Destroy => of_res (Destroy s)
  | tick d => steps (set_clock (clock s + Z.of_nat d) s) []
  | call_Next =>
      match nextMu s with
      | None => steps (set_nextMu (Some (at_loop None)) s) []
      | Some _ => blocked
      end
  | run_loop =>
      match nextMu s with
      | Some (at_loop i) => of_exit (loop_body i s)
      | _ => blocked
      end
  | recv_changed =>
      (* <-changed: only a closed channel ever delivers, nobody sends *)
      match nextMu s with
      | Some (at_recv ch) =>
          if is_closed ch s then steps (set_nextMu (Some (at_loop None)) s) []
          else blocked
      | Some (at_select i ch _) =>
          if is_closed ch s then steps (set_nextMu (Some (at_loop (Some i))) s) []
          else blocked
      | _ => blocked
      end
  | recv_timer =>
      (* <-time.After(d): not before the timer's instant *)
      match nextMu s with
      | Some (at_select i _ timer) =>
          if timer <=? clock s then of_exit (timer_case i s) else blocked
      | _ => blocked
      end
  end.

(** A schedule of events, run from [s]; the outputs are collected in order. *)
Fixpoint exec (srt : Sorter) (s : state) (es : list event) : outcome :=
  match es with
  | [] => steps s []
  | e :: es =>
      match step srt s e with
      | steps s' o =>
          match exec srt s' es with
          | steps s'' o' => steps s'' (o ++ o')
          | stop => stop
          end
      | stop => stop
      end
  end.

(** ** The vocabulary of the statements *)

(** The invariant as the specification words it, on adjacent positions. *)
Definition adjacent_sorted (l : list JITItem) : Prop :=
  forall k a b, nth_error l k = Some a -> nth_error l (S k) = Some b -> Time a <= Time b.

(** Whether position 0 holds another entry after the insertion than before,
    by [==]; an empty queue had no head, so any head is new. *)
Definition head_changed (before after : list JITItem) : bool :=
  match before, after with
  | a :: _, b :: _ => negb (same a b)
  | _, _ => true
  end.

(** The state [add] leaves: the queue replaced, and the channel rotated
    when the notification fired. *)
Definition added (q' : list JITItem) (fired : bool) (c : chan) (s : state) : state :=
  if fired then make_changed (set_closed (c :: closed s) (set_queue q' s))
  else set_queue q' s.

(** The channel a waiting consumer captured at line 126. *)
Definition captured (p : option pc) : option chan :=
  match p with
  | Some (at_recv ch) | Some (at_select _ ch _) => Some ch
  | _ => None
  end.

(** The invariant of the reachable states: the queue is sorted; the current
    channel is open and younger than none of the channels made; a destroyed
    queue is empty; a pending timer fires no earlier than its entry is due;
    the channel a waiting consumer captured is the current one or is
    closed. *)
Record wf (s : state) : Prop := mkWf {
  wf_sorted : Sorted le_time (queue s);
  wf_open : forall c, changed s = Some c -> is_closed c s = false;
  wf_made : forall c, changed s = Some c -> (c < made s)%nat;
  wf_closed : forall c, In c (closed s) -> (c < made s)%nat;
  wf_destroyed : changed s = None -> queue s = [];
  wf_timer : forall i ch t, nextMu s = Some (at_select i ch t) -> Time i <= t;
  wf_captured : forall ch, captured (nextMu s) = Some ch ->
                changed s = Some ch \/ In ch (closed s)
}.

(** What a critical section of [next] has to leave behind for the
    invariant to hold after it. *)
Definition exit_wf (x : exit) : Prop :=
  match x with
  | ret _ s => wf s
  | goto p s =>
      wf s /\ (forall i ch t, p = at_select i ch t -> Time i <= t) /\
      (forall ch, captured (Some p) = Some ch -> changed s = Some ch)
  end.

(** The states that a program reaches from [NewJIT()]. *)
Definition reachable (srt : Sorter) (s : state) : Prop :=
  exists now es o, exec srt (NewJIT now) es = steps s o.

(** The steps that take a consumer out of [Next] once the queue is
    destroyed: a fresh call, or one that stands at any control point. *)
Definition wake (p : option pc) : list event :=
  match p with
  | None => [call_Next; run_loop]
  | Some (at_loop _) => [run_loop]
  | Some (at_recv _) | Some (at_select _ _ _) => [recv_changed; run_loop]
  end.

(** The calls that insert. *)
Definition is_insert (e : event) : bool :=
  match e with
  | call_Add _ | call_Schedule _ _ => true
  | _ => false
  end.

(** The due time an inserting call gives its entry. *)
Definition due (e : event) : instant :=
  match e with
  | call_Add i => Time i
  | call_Schedule _ t => t
  | _ => 0
  end.

(** The value the consumer is to receive for an inserting call. *)
Definition payload (e : event) : any :=
  match e with
  | call_Add i => unwrap i
  | call_Schedule p _ => from_item p
  | _ => from_item nil
  end.

(** Due time and value, of a call and of a stored entry. *)
Definition expected (e : event) : instant * any := (due e, payload e).
Definition key (i : JITItem) : instant * any := (Time i, unwrap i).

(** What a call of [Next] that delivers [i] hands to its caller. *)
Definition delivered (i : JITItem) : output := Next_returns (Some i) (unwrap i).

(** [n] calls of [Next] in a row, each served by its first critical section. *)
Definition drain (n : nat) : list event := concat (repeat [call_Next; run_loop] n).

(** The events of the consumer and of the clock: no producer, no teardown. *)
Definition is_consumer (e : event) : bool :=
  match e with
  | call_Add _ | call_Schedule _ _ | call_Destroy => false
  | _ => true
  end.

(** The entries a run handed out, in order. *)
Definition deliveries (o : list output) : list JITItem :=
  flat_map (fun x => match x with
                     | Next_returns (Some i) _ => [i]
                     | _ => []
                     end) o.

(** The entry the consumer carries in [i] while it waits or loops. *)
Definition holding (p : option pc) : option JITItem :=
  match p with
  | Some (at_loop (Some i)) | Some (at_select i _ _) => Some i
  | _ => None
  end.

(** While no producer interferes, the carried entry is the head. *)
Definition head_held (s : state) : Prop :=
  forall i, holding (nextMu s) = Some i -> exists tl, queue s = i :: tl.

(** [s[k] = x] on a slice, for an index in range. *)
Fixpoint update {A : Type} (l : list A) (k : nat) (x : A) : list A :=
  match l, k with
  | [], _ => []
  | _ :: tl, O => x :: tl
  | y :: tl, S k => y :: update tl k x
  end.

(** [jitSlice.Len], [jitSlice.Swap] and [jitSlice.Less], lines 50-52: what
    [sort.Sort] works through.  Go evaluates both sides of
    [s[i], s[j] = s[j], s[i]] before it assigns, and an index out of range
    panics. *)
Definition jitSlice_Len (s : list JITItem) : nat := length s.

Definition jitSlice_Swap (s : list JITItem) (i j : nat) : res (list JITItem) :=
  b <- index s j ;;
  a <- index s i ;;
  Ok (update (update s i b) j a).

Definition jitSlice_Less (s : list JITItem) (i j : nat) : res bool :=
  a <- index s i ;;
  b <- index s j ;;
  Ok (Before (Time a) (Time b)).

(** The pointers that the inserting calls of a schedule hand to the queue,
    in order, when [a] [jitItem] structs were allocated before it. *)
Fixpoint inserted (a : nat) (es : list event) : list ref :=
  match es with
  | [] => []
  | call_Add i :: es => self i :: inserted a es
  | call_Schedule _ _ :: es => jitItem_at a :: inserted (S a) es
  | _ :: es => inserted a es
  end.

Definition is_Destroy (e : event) : bool :=
  match e with
  | call_Destroy => true
  | _ => false
  end.

(** What a waiting consumer may rely on.  While it carries an entry and
    the queue is live, the queue is not empty; a consumer that waits on the
    channel still installed has seen the head the queue has now: none when
    it waits in the bare receive, the entry it carries (by [==]) when it
    waits in the select. *)
Record waits_ok (s : state) : Prop := mkWaits {
  waits_carried : forall i, holding (nextMu s) = Some i -> changed s <> None ->
                  queue s <> [];
  waits_recv : forall ch, nextMu s = Some (at_recv ch) -> changed s = Some ch ->
               queue s = [];
  waits_select : forall i ch t, nextMu s = Some (at_select i ch t) ->
                 changed s = Some ch ->
                 exists h tl, queue s = h :: tl /\ same i h = true
}.

(** The steps by which a consumer at the top of its loop takes the head
    [h]: one pass of the loop if [h] is due, else the wait for its timer. *)
Definition take (h : JITItem) (s : state) : list event :=
  if Before (Time h) (clock s) then [run_loop]
  else [run_loop; tick (Z.to_nat (Time h - clock s)); recv_timer].

(** The state a critical section of [next] leaves. *)
Definition exit_state (x : exit) : state :=
  match x with
  | ret _ s | goto _ s => s
  end.

(** ** Insertion sort meets the contract of [sort.Sort] *)

Lemma insert_perm (x : JITItem) (l : list JITItem) :
  Permutation (x :: l) (insert x l).
Proof.
  induction l as [|y l IH]; simpl.
  - apply Permutation_refl.
  - destruct (Less x y).
    + apply Permutation_refl.
    + eapply perm_trans; [apply perm_swap|]. now apply perm_skip.
Qed.

Lemma insert_hd (x a : JITItem) (l : list JITItem) :
  le_time a x -> HdRel le_time a l -> HdRel le_time a (insert x l).
Proof.
  intros Hax Hl. destruct l as [|y l]; simpl.
  - now constructor.
  - destruct (Less x y); constructor; trivial.
    now inversion Hl.
Qed.

Lemma insert_sorted (x : JITItem) (l : list JITItem) :
  Sorted le_time l -> Sorted le_time (insert x l).
Proof.
  induction 1 as [|y l Hs IH Hhd]; simpl.
  - repeat constructor.
  - unfold Less, Before. destruct (Z.ltb_spec (Time x) (Time y)) as [Hlt|Hge].
    + constructor; [now constructor|]. constructor. unfold le_time. lia.
    + constructor; [exact IH|]. now apply insert_hd.
Qed.

Lemma fold_insert_perm (l acc : list JITItem) :
  Permutation (acc ++ l) (fold_left (fun a x => insert x a) l acc).
Proof.
  revert acc. induction l as [|x l IH]; intros acc; simpl.
  - now rewrite app_nil_r.
  - eapply perm_trans; [|apply IH].
    eapply perm_trans; [apply Permutation_sym, Permutation_middle|].
    change (x :: acc ++ l) with ((x :: acc) ++ l).
    apply Permutation_app_tail, insert_perm.
Qed.

Lemma fold_insert_sorted (l acc : list JITItem) :
  Sorted le_time acc -> Sorted le_time (fold_left (fun a x => insert x a) l acc).
Proof.
  revert acc. induction l as [|x l IH]; intros acc Hacc; simpl; trivial.
  now apply IH, insert_sorted.
Qed.

Definition insertion : Sorter :=
  {| sort_Sort := insertionSort;
     sort_perm := fun l => fold_insert_perm l [];
     sort_sorted := fun l => fold_insert_sorted l [] (Sorted_nil le_time) |}.

(** ** Slices *)

Lemma index_cons {A : Type} (x : A) (l : list A) : index (x :: l) 0 = Ok x.
Proof. reflexivity. Qed.

Lemma index_snoc_last {A : Type} (l : list A) (x : A) :
  index (l ++ [x]) (length (l ++ [x]) - 1) = Ok x.
Proof.
  unfold index. rewrite length_app, Nat.add_sub. simpl.
  now rewrite nth_error_app2, Nat.sub_diag by apply Nat.le_refl.
Qed.

Lemma index_snoc_prev {A : Type} (l : list A) (p x : A) :
  index ((l ++ [p]) ++ [x]) (length ((l ++ [p]) ++ [x]) - 2) = Ok p.
Proof.
  unfold index. rewrite !length_app. simpl.
  replace (length l + 1 + 1 - 2)%nat with (length l) by lia.
  rewrite nth_error_app1 by (rewrite length_app; simpl; lia).
  now rewrite nth_error_app2, Nat.sub_diag by apply Nat.le_refl.
Qed.

Lemma snoc_cases {A : Type} (l : list A) :
  l = [] \/ exists l' p, l = l' ++ [p].
Proof.
  destruct l as [|x l]; [now left|right].
  destruct (exists_last (l := x :: l)) as (l' & p & E); [discriminate|eauto].
Qed.

Lemma Sorted_snoc (l : list JITItem) (p x : JITItem) :
  Sorted le_time (l ++ [p]) -> le_time p x -> Sorted le_time ((l ++ [p]) ++ [x]).
Proof.
  intros Hs Hpx. induction l as [|y l IH]; simpl in *.
  - repeat constructor. exact Hpx.
  - inversion Hs as [|? ? Hs' Hhd]; subst. constructor; [now apply IH|].
    destruct l; simpl in *; inversion Hhd; subst; now constructor.
Qed.

Lemma le_time_trans (a b c : JITItem) : le_time a b -> le_time b c -> le_time a c.
Proof. unfold le_time. lia. Qed.

Lemma Sorted_adjacent (l : list JITItem) : Sorted le_time l <-> adjacent_sorted l.
Proof.
  split.
  - induction 1 as [|x l Hs IH Hhd]; intros k a b Ha Hb.
    + now destruct k.
    + destruct k as [|k]; simpl in *.
      * injection Ha as <-. destruct l as [|y l]; [discriminate|].
        injection Hb as <-. now inversion Hhd.
      * exact (IH k a b Ha Hb).
  - induction l as [|x l IH]; intros H; constructor.
    + apply IH. intros k a b Ha Hb. exact (H (S k) a b Ha Hb).
    + destruct l as [|y l]; constructor. exact (H 0%nat x y eq_refl eq_refl).
Qed.

Lemma Sorted_tail (x : JITItem) (l : list JITItem) :
  Sorted le_time (x :: l) -> Sorted le_time l.
Proof. now inversion 1. Qed.

(** ** What [add] does, case by case *)

Lemma sort_length (srt : Sorter) (l : list JITItem) :
  length (sort_Sort srt l) = length l.
Proof. symmetry. apply Permutation_length, sort_perm. Qed.

Lemma ref_eqb_refl (r : ref) : ref_eqb r r = true.
Proof. destruct r; simpl; apply Nat.eqb_refl. Qed.

Lemma same_refl (i : JITItem) : same i i = true.
Proof. apply ref_eqb_refl. Qed.

Lemma add_destroyed (srt : Sorter) (i : JITItem) (s : state) :
  changed s = None -> add srt i s = Ok s.
Proof. unfold add. now intros ->. Qed.

Lemma add_empty (srt : Sorter) (i : JITItem) (s : state) (c : chan) :
  changed s = Some c -> queue s = [] ->
  add srt i s = notify (set_queue (sort_Sort srt [i]) s).
Proof.
  intros Hc Hq. unfold add. rewrite Hc, Hq. simpl.
  now rewrite sort_length.
Qed.

Lemma add_chronological (srt : Sorter) (i p : JITItem) (l : list JITItem) (s : state) (c : chan) :
  changed s = Some c -> queue s = l ++ [p] -> After (Time i) (Time p) = true ->
  add srt i s = Ok (set_queue (queue s ++ [i]) s).
Proof.
  intros Hc Hq Haft. unfold add. rewrite Hc, Hq.
  cbn [queue set_queue].
  rewrite index_snoc_last, index_snoc_prev.
  replace (Nat.ltb 1 (length ((l ++ [p]) ++ [i]))) with true
    by (symmetry; apply Nat.ltb_lt; rewrite !length_app; simpl; lia).
  destruct (l ++ [p]) eqn:E; [now destruct l|].
  cbn. now rewrite Haft.
Qed.

Lemma add_sorting (srt : Sorter) (i p first : JITItem) (l rest : list JITItem) (s : state) (c : chan) :
  changed s = Some c -> queue s = l ++ [p] -> queue s = first :: rest ->
  After (Time i) (Time p) = false ->
  exists head tl,
    sort_Sort srt (queue s ++ [i]) = head :: tl /\
    add srt i s =
      if same first head then Ok (set_queue (head :: tl) s)
      else notify (set_queue (head :: tl) s).
Proof.
  intros Hc Hq Hq' Haft.
  destruct (sort_Sort srt (queue s ++ [i])) as [|head tl] eqn:Hsort.
  { apply (f_equal (@length _)) in Hsort. rewrite sort_length, Hq', length_app in Hsort.
    simpl in Hsort. lia. }
  exists head, tl. split; [reflexivity|].
  assert (Hlen : Nat.ltb 1 (length (head :: tl)) = true).
  { rewrite <- Hsort, sort_length, Hq', length_app. simpl. apply Nat.ltb_lt. lia. }
  unfold add. rewrite Hc. cbn [queue set_queue].
  assert (Hn : Nat.ltb 1 (length (queue s ++ [i])) = true).
  { rewrite Hq', length_app. simpl. apply Nat.ltb_lt. lia. }
  rewrite Hn, Hsort, Hlen.
  replace (index (queue s ++ [i]) (length (queue s ++ [i]) - 1)) with (Ok i)
    by (rewrite Hq; symmetry; apply index_snoc_last).
  replace (index (queue s ++ [i]) (length (queue s ++ [i]) - 2)) with (Ok p)
    by (rewrite Hq; symmetry; apply index_snoc_prev).
  rewrite Hq'. cbn. rewrite Haft.
  destruct (same first head); reflexivity.
Qed.

Lemma notify_live (s : state) (c : chan) :
  changed s = Some c -> is_closed c s = false ->
  notify s = Ok (make_changed (set_closed (c :: closed s) s)).
Proof. intros Hc Ho. unfold notify, close. now rewrite Hc, Ho. Qed.

Lemma add_live (srt : Sorter) (i : JITItem) (s : state) (c : chan) :
  Sorted le_time (queue s) -> changed s = Some c -> is_closed c s = false ->
  exists q',
    add srt i s = Ok (added q' (head_changed (queue s) q') c s) /\
    Permutation (queue s ++ [i]) q' /\ Sorted le_time q'.
Proof.
  intros Hs Hc Ho.
  destruct (snoc_cases (queue s)) as [Hq | (l & p & Hq)].
  - exists (sort_Sort srt [i]). rewrite (add_empty srt i s c Hc Hq), Hq. simpl.
    split; [|split; [apply sort_perm | apply sort_sorted]].
    exact (notify_live (set_queue (sort_Sort srt [i]) s) c Hc Ho).
  - destruct (queue s) as [|first rest] eqn:Hq'; [now destruct l|].
    destruct (After (Time i) (Time p)) eqn:Haft.
    + exists ((first :: rest) ++ [i]).
      rewrite (add_chronological srt i p l s c Hc), Hq'; trivial; [|congruence].
      cbn. rewrite same_refl. cbn. split; [reflexivity|]. split; [reflexivity|].
      change (Sorted le_time ((first :: rest) ++ [i])). rewrite Hq.
      apply Sorted_snoc; [now rewrite <- Hq|].
      unfold After in Haft. apply Z.ltb_lt in Haft. unfold le_time. lia.
    + destruct (add_sorting srt i p first l rest s c) as (head & tl & Hsort & Hadd);
        trivial; try congruence.
      exists (head :: tl). rewrite Hadd. rewrite Hq' in Hsort. split; [|split].
      * cbn. unfold added. destruct (same first head); cbn; [reflexivity|].
        exact (notify_live (set_queue (head :: tl) s) c Hc Ho).
      * rewrite <- Hsort. apply sort_perm.
      * rewrite <- Hsort. apply sort_sorted.
Qed.

(** ** The invariant of the reachable states *)

Lemma is_closed_In (c : chan) (s : state) : is_closed c s = true <-> In c (closed s).
Proof.
  unfold is_closed. rewrite existsb_exists. split.
  - intros (x & Hin & Heq). apply Nat.eqb_eq in Heq. now subst.
  - intros Hin. exists c. split; [exact Hin | apply Nat.eqb_refl].
Qed.

Lemma wf_NewJIT (now : instant) : wf (NewJIT now).
Proof.
  constructor; cbn; try (intros; discriminate); try contradiction.
  - constructor.
  - reflexivity.
  - intros c [= <-]. lia.
Qed.

Lemma wf_set_queue (q' : list JITItem) (s : state) :
  wf s -> Sorted le_time q' -> (changed s = None -> q' = []) -> wf (set_queue q' s).
Proof. intros [] Hs Hd. constructor; cbn; auto. Qed.

Lemma wf_set_nextMu (p : option pc) (s : state) :
  wf s -> (forall i ch t, p = Some (at_select i ch t) -> Time i <= t) ->
  (forall ch, captured p = Some ch -> changed s = Some ch \/ In ch (closed s)) ->
  wf (set_nextMu p s).
Proof. intros [] Hp Hcap. constructor; cbn; auto. Qed.

Lemma wf_set_clock (t : instant) (s : state) : wf s -> wf (set_clock t s).
Proof. intros []. constructor; cbn; auto. Qed.

Lemma wf_set_allocs (n : nat) (s : state) : wf s -> wf (set_allocs n s).
Proof. intros []. constructor; cbn; auto. Qed.

Lemma wf_rotate (s : state) (c : chan) :
  wf s -> changed s = Some c -> wf (make_changed (set_closed (c :: closed s) s)).
Proof.
  intros [Hs Ho Hm Hcl Hd Ht Hcap] Hc. constructor; cbn; auto.
  - intros c' [= <-]. unfold is_closed. cbn.
    destruct (Nat.eqb_spec (made s) c) as [E|_].
    + specialize (Hm c Hc). lia.
    + destruct (existsb (Nat.eqb (made s)) (closed s)) eqn:E; [|reflexivity].
      apply (is_closed_In (made s) s) in E. apply Hcl in E. lia.
  - intros c' [= <-]. lia.
  - intros c' [E | Hin]; [subst c'; specialize (Hm c Hc) | apply Hcl in Hin]; lia.
  - discriminate.
  - intros ch Hch. right. destruct (Hcap ch Hch) as [E | Hin]; [left | now right].
    congruence.
Qed.

Lemma wf_Destroy (s s' : state) : wf s -> Destroy s = Ok s' -> wf s'.
Proof.
  intros [Hs Ho Hm Hcl Hd Ht Hcap]. unfold Destroy, close. cbn.
  destruct (changed s) as [c|] eqn:Hc; [|discriminate]. cbn.
  change (existsb (Nat.eqb c) (closed s)) with (is_closed c s).
  rewrite (Ho c eq_refl). cbn. intros [= <-].
  constructor; cbn; auto; try discriminate.
  - intros c' [E | Hin]; subst; auto.
  - intros ch Hch. right. destruct (Hcap ch Hch) as [E | Hin]; [left | now right].
    congruence.
Qed.

Lemma wf_add (srt : Sorter) (i : JITItem) (s s' : state) :
  wf s -> add srt i s = Ok s' -> wf s'.
Proof.
  intros Hwf. destruct (changed s) as [c|] eqn:Hc.
  - destruct (add_live srt i s c) as (q' & -> & _ & Hs');
      [apply Hwf | exact Hc | now apply Hwf |].
    intros [= <-]. unfold added.
    assert (Hq : wf (set_queue q' s))
      by (apply wf_set_queue; trivial; congruence).
    destruct (head_changed (queue s) q'); [|exact Hq].
    now apply (wf_rotate (set_queue q' s) c).
  - rewrite add_destroyed by exact Hc. now intros [= <-].
Qed.

(** ** What the consumer's critical sections do, case by case *)

Lemma loop_body_destroyed (i : option JITItem) (s : state) :
  changed s = None -> loop_body i s = Ok (ret None s).
Proof. unfold loop_body. now intros ->. Qed.

Lemma loop_body_empty (i : option JITItem) (s : state) (ch : chan) :
  changed s = Some ch -> queue s = [] -> loop_body i s = Ok (goto (wait i ch s) s).
Proof. unfold loop_body, isEmpty. now intros -> ->. Qed.

Lemma loop_body_head (i : option JITItem) (s : state) (ch : chan) (h : JITItem) (tl : list JITItem) :
  changed s = Some ch -> queue s = h :: tl ->
  loop_body i s =
    if Before (Time h) (clock s) then Ok (ret (Some h) (set_queue tl s))
    else Ok (goto (wait (Some h) ch s) s).
Proof.
  unfold loop_body, isEmpty. intros -> ->. cbn.
  now destruct (Before (Time h) (clock s)).
Qed.

Lemma timer_case_empty (i : JITItem) (s : state) :
  queue s = [] -> timer_case i s = Ok (goto (at_loop (Some i)) s).
Proof. unfold timer_case, isEmpty. now intros ->. Qed.

Lemma timer_case_head (i h : JITItem) (tl : list JITItem) (s : state) :
  queue s = h :: tl ->
  timer_case i s =
    if same i h then Ok (ret (Some i) (set_queue tl s))
    else Ok (goto (at_loop (Some i)) s).
Proof.
  unfold timer_case, isEmpty. intros ->. cbn. now destruct (same i h).
Qed.

(** Neither critical section of [next] can panic. *)
Lemma loop_body_total (i : option JITItem) (s : state) : exists x, loop_body i s = Ok x.
Proof.
  destruct (changed s) as [ch|] eqn:Hc.
  - destruct (queue s) as [|h tl] eqn:Hq.
    + rewrite (loop_body_empty i s ch Hc Hq). eauto.
    + rewrite (loop_body_head i s ch h tl Hc Hq).
      destruct (Before (Time h) (clock s)); eauto.
  - rewrite (loop_body_destroyed i s Hc). eauto.
Qed.

Lemma timer_case_total (i : JITItem) (s : state) : exists x, timer_case i s = Ok x.
Proof.
  destruct (queue s) as [|h tl] eqn:Hq.
  - rewrite (timer_case_empty i s Hq). eauto.
  - rewrite (timer_case_head i h tl s Hq). destruct (same i h); eauto.
Qed.

(** ** The invariant is inductive *)

Lemma wait_captured (o : option JITItem) (ch : chan) (s : state) :
  changed s = Some ch ->
  forall ch', captured (Some (wait o ch s)) = Some ch' -> changed s = Some ch'.
Proof. intros Hc ch'. destruct o; cbn; congruence. Qed.

Lemma wait_timer (o : option JITItem) (ch : chan) (s : state) (i : JITItem) (c : chan) (t : instant) :
  wait o ch s = at_select i c t -> Time i <= t.
Proof.
  destruct o as [j|]; cbn; [|discriminate].
  intros [= <- _ <-]. unfold Until. lia.
Qed.

Lemma loop_body_wf (i : option JITItem) (s : state) (x : exit) :
  wf s -> loop_body i s = Ok x -> exit_wf x.
Proof.
  intros Hwf. destruct (changed s) as [ch|] eqn:Hc.
  - destruct (queue s) as [|h tl] eqn:Hq.
    + rewrite (loop_body_empty i s ch Hc Hq). intros [= <-].
      split; [exact Hwf | split; [exact (wait_timer i ch s)|]].
      exact (wait_captured i ch s Hc).
    + rewrite (loop_body_head i s ch h tl Hc Hq).
      destruct (Before (Time h) (clock s)); intros [= <-]; cbn.
      * apply wf_set_queue; trivial; [|congruence].
        apply (Sorted_tail h). rewrite <- Hq. apply Hwf.
      * split; [exact Hwf | split; [exact (wait_timer (Some h) ch s)|]].
        exact (wait_captured (Some h) ch s Hc).
  - rewrite (loop_body_destroyed i s Hc). now intros [= <-].
Qed.

Lemma timer_case_wf (i : JITItem) (s : state) (x : exit) :
  wf s -> timer_case i s = Ok x -> exit_wf x.
Proof.
  intros Hwf. destruct (queue s) as [|h tl] eqn:Hq.
  - rewrite (timer_case_empty i s Hq). intros [= <-]. cbn.
    split; [exact Hwf | split; discriminate].
  - rewrite (timer_case_head i h tl s Hq).
    destruct (same i h); intros [= <-]; cbn.
    + apply wf_set_queue; trivial.
      * apply (Sorted_tail h). rewrite <- Hq. apply Hwf.
      * intros Hd. apply Hwf in Hd. congruence.
    + split; [exact Hwf | split; discriminate].
Qed.

Lemma of_exit_wf (x : exit) (s' : state) (o : list output) :
  exit_wf x -> of_exit (Ok x) = steps s' o -> wf s'.
Proof.
  destruct x as [i s | p s]; cbn.
  - intros Hwf [= <- _]. apply wf_set_nextMu; [exact Hwf | discriminate | discriminate].
  - intros (Hwf & Hp & Hcap) [= <- _]. apply wf_set_nextMu; [exact Hwf | |].
    + intros i ch t [= ->]. now apply (Hp i ch t).
    + intros ch Hch. left. now apply Hcap.
Qed.

Lemma step_wf (srt : Sorter) (s s' : state) (e : event) (o : list output) :
  wf s -> step srt s e = steps s' o -> wf s'.
Proof.
  intros Hwf. destruct e as [i | i t | | | | | | | d]; cbn.
  - unfold Add. destruct (add srt i s) as [s1|p] eqn:E; cbn; [|discriminate].
    intros [= <- _]. exact (wf_add srt i s s1 Hwf E).
  - unfold Schedule, Add.
    destruct (add srt (jitItem (allocs s) i t) (set_allocs (S (allocs s)) s)) as [s1|p] eqn:E;
      cbn; [|discriminate].
    intros [= <- _]. eapply wf_add; [|exact E]. now apply wf_set_allocs.
  - now intros [= <- _].
  - destruct (Destroy s) as [s1|p] eqn:E; cbn; [|discriminate].
    intros [= <- _]. exact (wf_Destroy s s1 Hwf E).
  - destruct (nextMu s); [discriminate|]. intros [= <- _].
    apply wf_set_nextMu; [exact Hwf | discriminate | discriminate].
  - destruct (nextMu s) as [[i | ch | i ch t]|]; try discriminate.
    destruct (loop_body i s) as [x|p] eqn:E; [|discriminate].
    apply of_exit_wf. exact (loop_body_wf i s x Hwf E).
  - destruct (nextMu s) as [[i | ch | i ch t]|]; try discriminate;
      (destruct (is_closed ch s); [|discriminate]);
      intros [= <- _]; (apply wf_set_nextMu; [exact Hwf | discriminate | discriminate]).
  - destruct (nextMu s) as [[i | ch | i ch t]|]; try discriminate.
    destruct (t <=? clock s); [|discriminate].
    destruct (timer_case i s) as [x|p] eqn:E; [|discriminate].
    apply of_exit_wf. exact (timer_case_wf i s x Hwf E).
  - intros [= <- _]. now apply wf_set_clock.
Qed.

Lemma exec_wf (srt : Sorter) (es : list event) (s s' : state) (o : list output) :
  wf s -> exec srt s es = steps s' o -> wf s'.
Proof.
  revert s o. induction es as [|e es IH]; intros s o Hwf; cbn.
  - now intros [= <- _].
  - destruct (step srt s e) as [| |s1 o1] eqn:E; try discriminate.
    destruct (exec srt s1 es) as [| |s2 o2] eqn:E'; try discriminate.
    intros [= <- _]. eapply IH; [|exact E']. exact (step_wf srt s s1 e o1 Hwf E).
Qed.

Lemma reachable_wf (srt : Sorter) (s : state) : reachable srt s -> wf s.
Proof.
  intros (now & es & o & H). exact (exec_wf srt es _ s o (wf_NewJIT now) H).
Qed.

Lemma exec_app (srt : Sorter) (es es' : list event) (s : state) :
  exec srt s (es ++ es') =
    match exec srt s es with
    | steps s' o =>
        match exec srt s' es' with
        | steps s'' o' => steps s'' (o ++ o')
        | stop => stop
        end
    | stop => stop
    end.
Proof.
  revert s. induction es as [|e es IH]; intros s; cbn.
  - now destruct (exec srt s es').
  - destruct (step srt s e) as [| |s1 o1]; trivial.
    rewrite IH. destruct (exec srt s1 es) as [| |s2 o2]; trivial.
    destruct (exec srt s2 es') as [| |s3 o3]; trivial.
    now rewrite app_assoc.
Qed.

Lemma reachable_step (srt : Sorter) (s s' : state) (e : event) (o : list output) :
  reachable srt s -> step srt s e = steps s' o -> reachable srt s'.
Proof.
  intros (now & es & o0 & H) Hstep. exists now, (es ++ [e]), (o0 ++ o ++ []).
  rewrite exec_app, H. cbn. now rewrite Hstep.
Qed.

(** ** Storage and insertion *)

Lemma step_sorted (srt : Sorter) (s s' : state) (e : event) (o : list output) :
  wf s -> step srt s e = steps s' o -> adjacent_sorted (queue s').
Proof.
  intros Hwf Hstep. apply Sorted_adjacent. exact (wf_sorted _ (step_wf srt s s' e o Hwf Hstep)).
Qed.

(** C6: the stored sequence is sorted ascending by due time.  In every
    state a program reaches from [NewJIT()], whatever calls of [Add],
    [Schedule], [Next], [IsEmpty] and [Destroy] it interleaved, any two
    adjacent positions [k], [k+1] of [q.queue] hold due times in
    non-decreasing order, and every further operation leaves a queue with
    the same property. *)
Theorem queue_sorted_invariant (srt : Sorter) (now : instant) (es : list event)
    (s : state) (o : list output) :
  exec srt (NewJIT now) es = steps s o ->
  adjacent_sorted (queue s) /\
  forall e s' o', step srt s e = steps s' o' -> adjacent_sorted (queue s').
Proof.
  intros Hexec.
  assert (Hwf : wf s) by exact (exec_wf srt es _ s o (wf_NewJIT now) Hexec).
  split.
  - apply Sorted_adjacent, Hwf.
  - intros e s' o'. apply step_sorted, Hwf.
Qed.

Lemma queue_sorted_invariant_witness :
  adjacent_sorted [jitItem 1 (opaque 2) 10; jitItem 2 nil 10; jitItem 0 (opaque 1) 50].
Proof.
  pose proof (queue_sorted_invariant insertion 0
    [call_Schedule (opaque 1) 50; call_Schedule (opaque 2) 10; call_Schedule nil 10]) as H.
  specialize (H _ _ ltac:(vm_compute; reflexivity)).
  exact (proj1 H).
Defined.



(** C8: on a destroyed queue [Add] and [Schedule] do nothing: nothing is
    inserted, the stored sequence and the channels are as before, and the
    call returns normally. *)
Theorem Add_on_destroyed_is_noop (srt : Sorter) (s : state) :
  changed s = None ->
  (forall i, Add srt i s = Ok s) /\
  (forall p t, exists s',
     Schedule srt p t s = Ok s' /\
     queue s' = queue s /\ changed s' = None /\ closed s' = closed s /\
     made s' = made s /\ nextMu s' = nextMu s).
Proof.
  intros Hd. split.
  - intros i. now apply add_destroyed.
  - intros p t. eexists. split.
    + unfold Schedule, Add. now apply add_destroyed.
    + cbn. auto.
Qed.

Lemma Add_on_destroyed_is_noop_witness :
  Add insertion (jitItem 3 (opaque 4) 1)
    {| queue := []; changed := None; nextMu := None;
       closed := [0%nat]; made := 1; allocs := 0; clock := 0 |} =
  Ok {| queue := []; changed := None; nextMu := None;
        closed := [0%nat]; made := 1; allocs := 0; clock := 0 |}.
Proof.
  apply (Add_on_destroyed_is_noop insertion). reflexivity.
Defined.

(** ** Teardown *)

Lemma Destroy_live (s : state) (c : chan) :
  changed s = Some c -> is_closed c s = false ->
  Destroy s = Ok (set_changed None (set_closed (c :: closed s) (set_queue [] s))).
Proof.
  destruct s as [q ch p cl m a t]. unfold Destroy, close, is_closed. cbn.
  now intros -> ->.
Qed.

Lemma Destroy_destroyed (s : state) :
  changed s = None -> Destroy s = Panic close_of_nil_channel.
Proof. intros Hc. unfold Destroy, close. cbn. now rewrite Hc. Qed.

Lemma Destroy_result (s s' : state) :
  Destroy s = Ok s' -> changed s' = None /\ queue s' = [].
Proof.
  unfold Destroy, close. cbn. destruct (changed s) as [c|]; [|discriminate].
  destruct (existsb (Nat.eqb c) (closed s)); [discriminate|].
  now intros [= <-].
Qed.





(** Whatever the consumer is doing, none of its steps can panic. *)
Lemma consumer_never_panics (srt : Sorter) (s : state) (e : event) (p : panic) :
  step srt s e = panics p ->
  (exists i, e = call_Add i) \/ (exists i t, e = call_Schedule i t) \/ e = call_Destroy.
Proof.
  destruct e as [i | i t | | | | | | | d]; cbn; try discriminate; eauto.
  - destruct (nextMu s); discriminate.
  - destruct (nextMu s) as [[i | ch | i ch t]|]; try discriminate.
    destruct (loop_body_total i s) as (x & ->). destruct x; discriminate.
  - destruct (nextMu s) as [[i | ch | i ch t]|]; try discriminate;
      destruct (is_closed ch s); discriminate.
  - destruct (nextMu s) as [[i | ch | i ch t]|]; try discriminate.
    destruct (t <=? clock s); [|discriminate].
    destruct (timer_case_total i s) as (x & ->). destruct x; discriminate.
Qed.

Lemma Next_on_destroyed (srt : Sorter) (s : state) :
  wf s -> changed s = None ->
  exec srt s (wake (nextMu s)) =
    steps (set_nextMu None s) [Next_returns None (from_item nil)].
Proof.
  intros Hwf Hc.
  assert (Hcap : forall ch, captured (nextMu s) = Some ch -> is_closed ch s = true).
  { intros ch Hch. apply is_closed_In.
    destruct (wf_captured s Hwf ch Hch) as [E | Hin]; [congruence | exact Hin]. }
  destruct (nextMu s) as [[i | ch | i ch t]|] eqn:Hp; cbn; rewrite Hp.
  - rewrite loop_body_destroyed by exact Hc. reflexivity.
  - rewrite (Hcap ch eq_refl). cbn.
    rewrite loop_body_destroyed by exact Hc. reflexivity.
  - rewrite (Hcap ch eq_refl). cbn.
    rewrite loop_body_destroyed by exact Hc. reflexivity.
  - cbn. rewrite loop_body_destroyed by exact Hc. reflexivity.
Qed.

(** C5, as the code has it: on a destroyed queue [Add], [Schedule],
    [IsEmpty] and [Next] complete without a panic.  [Add] changes nothing,
    [Schedule] inserts nothing, [IsEmpty] answers true, and [Next] returns
    nil whether it is called afresh or was waiting when the queue was
    destroyed.  A second [Destroy] is the one operation that panics, with
    the close of a nil channel. *)
Theorem destroyed_queue_operations (srt : Sorter) (s : state) :
  reachable srt s -> changed s = None ->
  (forall i, step srt s (call_Add i) = steps s []) /\
  (forall p t, exists s',
     step srt s (call_Schedule p t) = steps s' [] /\ queue s' = [] /\ changed s' = None) /\
  step srt s call_IsEmpty = steps s [IsEmpty_returns true] /\
  exec srt s (wake (nextMu s)) =
    steps (set_nextMu None s) [Next_returns None (from_item nil)] /\
  (forall e p, step srt s e = panics p -> e = call_Destroy) /\
  step srt s call_Destroy = panics close_of_nil_channel.
Proof.
  intros Hr Hc. apply reachable_wf in Hr.
  assert (Hq : queue s = []) by now apply Hr.
  split; [|split; [|split; [|split; [|split]]]].
  - intros i. cbn. unfold Add. now rewrite add_destroyed.
  - intros p t. eexists. cbn. unfold Schedule, Add.
    rewrite add_destroyed by exact Hc. cbn. auto.
  - cbn. unfold IsEmpty, isEmpty. now rewrite Hq.
  - now apply Next_on_destroyed.
  - intros e p Hp.
    destruct (consumer_never_panics srt s e p Hp) as [(i & ->) | [(i & t & ->) | ->]];
      trivial; cbn in Hp.
    + unfold Add in Hp. now rewrite add_destroyed in Hp.
    + unfold Schedule, Add in Hp. now rewrite add_destroyed in Hp.
  - cbn. now rewrite Destroy_destroyed.
Qed.

Lemma destroyed_queue_operations_witness :
  step insertion
    {| queue := []; changed := None; nextMu := Some (at_recv 0%nat);
       closed := [0%nat]; made := 1; allocs := 0; clock := 3 |}
    call_Destroy = panics close_of_nil_channel.
Proof.
  apply (destroyed_queue_operations insertion).
  - exists 3, [call_Next; run_loop; call_Destroy], []. vm_compute. reflexivity.
  - reflexivity.
Defined.

(** C5 as stated fails on [Destroy] itself: the second call panics. *)
Lemma second_Destroy_panics :
  exists s, Destroy (NewJIT 0) = Ok s /\
            Destroy s = Panic close_of_nil_channel /\
            exec insertion (NewJIT 0) [call_Destroy; call_Destroy] = panics close_of_nil_channel.
Proof. eexists. repeat split; vm_compute; reflexivity. Qed.

(** ** Blocking retrieval *)

Lemma loop_body_ret (carried next : option JITItem) (s s0 : state) :
  loop_body carried s = Ok (ret next s0) ->
  (changed s = None /\ next = None /\ s0 = s) \/
  (exists ch h tl, changed s = Some ch /\ queue s = h :: tl /\ next = Some h /\
                   Time h < clock s /\ s0 = set_queue tl s).
Proof.
  destruct (changed s) as [ch|] eqn:Hc.
  - destruct (queue s) as [|h tl] eqn:Hq.
    + now rewrite (loop_body_empty carried s ch Hc Hq).
    + rewrite (loop_body_head carried s ch h tl Hc Hq). unfold Before.
      destruct (Z.ltb_spec (Time h) (clock s)) as [Hlt|Hge]; [|discriminate].
      intros [= <- <-]. right. exists ch, h, tl. auto.
  - rewrite (loop_body_destroyed carried s Hc). intros [= <- <-]. now left.
Qed.

Lemma timer_case_ret (i : JITItem) (next : option JITItem) (s s0 : state) :
  timer_case i s = Ok (ret next s0) ->
  exists h tl, queue s = h :: tl /\ same i h = true /\ next = Some i /\ s0 = set_queue tl s.
Proof.
  destruct (queue s) as [|h tl] eqn:Hq.
  - now rewrite (timer_case_empty i s Hq).
  - rewrite (timer_case_head i h tl s Hq).
    destruct (same i h) eqn:E; [|discriminate].
    intros [= <- <-]. exists h, tl. auto.
Qed.

Lemma of_exit_returns (r : res exit) (s' : state) (o : list output) (next : option JITItem) (v : any) :
  of_exit r = steps s' o -> In (Next_returns next v) o ->
  v = Next_value next /\ exists s0, r = Ok (ret next s0) /\ s' = set_nextMu None s0.
Proof.
  destruct r as [[i s0 | p s0] | p]; cbn; try discriminate.
  - intros [= <- <-] [[= <- <-] | []]. eauto.
  - now intros [= <- <-] [].
Qed.

(** Only the two delivering branches of [next] make [Next] return. *)
Lemma step_returns (srt : Sorter) (s s' : state) (e : event) (o : list output)
    (next : option JITItem) (v : any) :
  step srt s e = steps s' o -> In (Next_returns next v) o ->
  v = Next_value next /\
  exists s0, s' = set_nextMu None s0 /\
    ((exists carried, e = run_loop /\ nextMu s = Some (at_loop carried) /\
        loop_body carried s = Ok (ret next s0)) \/
     (exists i ch t, e = recv_timer /\ nextMu s = Some (at_select i ch t) /\
        t <= clock s /\ timer_case i s = Ok (ret next s0))).
Proof.
  destruct e as [i | i t | | | | | | | d]; cbn.
  - destruct (Add srt i s); cbn; [|discriminate]. now intros [= <- <-] [].
  - destruct (Schedule srt i t s); cbn; [|discriminate]. now intros [= <- <-] [].
  - intros [= <- <-] [[=] | []].
  - destruct (Destroy s); cbn; [|discriminate]. now intros [= <- <-] [].
  - destruct (nextMu s); [discriminate|]. now intros [= <- <-] [].
  - destruct (nextMu s) as [[i | ch | i ch t]|]; try discriminate.
    intros Hx Hin. destruct (of_exit_returns _ _ _ _ _ Hx Hin) as (Hv & s0 & Hr & Hs').
    split; [exact Hv|]. exists s0. split; [exact Hs'|]. left. eauto.
  - destruct (nextMu s) as [[i | ch | i ch t]|]; try discriminate;
      (destruct (is_closed ch s); [|discriminate]); now intros [= <- <-] [].
  - destruct (nextMu s) as [[i | ch | i ch t]|]; try discriminate.
    destruct (Z.leb_spec t (clock s)) as [Hle|Hgt]; [|discriminate].
    intros Hx Hin. destruct (of_exit_returns _ _ _ _ _ Hx Hin) as (Hv & s0 & Hr & Hs').
    split; [exact Hv|]. exists s0. split; [exact Hs'|]. right. exists i, ch, t. auto.
  - now intros [= <- <-] [].
Qed.






(** C4, as the code has it: [Next] returns nil exactly when the queue is
    destroyed at the return, or when the delivered entry itself carries a
    nil payload ([Schedule(nil, t)], or an item whose [getItem()] answers
    nil).  On a destroyed queue it delivers no entry; on a live queue an
    entry with a payload other than nil never comes out as nil. *)
Theorem Next_returns_nil_iff (srt : Sorter) (s s' : state) (e : event) (o : list output)
    (next : option JITItem) (v : any) :
  reachable srt s ->
  step srt s e = steps s' o -> In (Next_returns next v) o ->
  (v = from_item nil <->
   changed s = None \/ exists i, next = Some i /\ getItem i = Some nil) /\
  (changed s = None -> next = None) /\
  (next = None -> changed s = None).
Proof.
  intros Hr Hstep Hin. apply reachable_wf in Hr.
  destruct (step_returns srt s s' e o next v Hstep Hin)
    as (-> & s0 & _ & [(carried & _ & _ & Hbody) | (j & ch & t & _ & _ & _ & Hcase)]).
  - destruct (loop_body_ret carried next s s0 Hbody)
      as [(Hc & -> & _) | (ch & h & tl & Hc & _ & -> & _ & _)].
    + split; [|auto]. split; auto.
    + split; [|split; congruence]. cbn. unfold unwrap. split.
      * destruct (getItem h) as [p|] eqn:E; [|discriminate].
        intros [= ->]. right. eauto.
      * intros [Hd | (i & [= <-] & ->)]; [congruence | reflexivity].
  - destruct (timer_case_ret j next s s0 Hcase) as (h & tl & Hq & _ & -> & _).
    assert (Hlive : changed s <> None).
    { intros Hd. apply (wf_destroyed s Hr) in Hd. congruence. }
    split; [|split; [contradiction | discriminate]]. cbn. unfold unwrap. split.
    + destruct (getItem j) as [p|] eqn:E; [|discriminate].
      intros [= ->]. right. eauto.
    + intros [Hd | (i & [= <-] & ->)]; [contradiction | reflexivity].
Qed.

Lemma Next_returns_nil_iff_witness :
  (from_item (opaque 1) = from_item nil <->
   Some 1%nat = None \/
   exists i, Some (jitItem 0 (opaque 1) 4) = Some i /\ getItem i = Some nil) /\
  (Some 1%nat = None -> Some (jitItem 0 (opaque 1) 4) = None) /\
  (Some (jitItem 0 (opaque 1) 4) = None -> Some 1%nat = None).
Proof.
  apply (Next_returns_nil_iff insertion
           {| queue := [jitItem 0 (opaque 1) 4]; changed := Some 1%nat;
              nextMu := Some (at_loop None);
              closed := [0%nat]; made := 2; allocs := 1; clock := 5 |}
           {| queue := []; changed := Some 1%nat; nextMu := None;
              closed := [0%nat]; made := 2; allocs := 1; clock := 5 |}
           run_loop
           [Next_returns (Some (jitItem 0 (opaque 1) 4)) (from_item (opaque 1))]).
  - exists 5, [call_Schedule (opaque 1) 4; call_Next], []. vm_compute. reflexivity.
  - vm_compute. reflexivity.
  - left. reflexivity.
Defined.

(** C4 as stated fails on a nil payload: the queue is live, was never
    destroyed, and [Next] returns nil. *)
Lemma Next_returns_nil_on_live_queue :
  exec insertion (NewJIT 0) [call_Schedule nil (-5); call_Next; run_loop] =
  steps {| queue := []; changed := Some 1%nat; nextMu := None;
           closed := [0%nat]; made := 2; allocs := 1; clock := 0 |}
        [Next_returns (Some (jitItem 0 nil (-5))) (from_item nil)].
Proof. vm_compute. reflexivity. Qed.

Lemma sort_singleton (srt : Sorter) (i : JITItem) : sort_Sort srt [i] = [i].
Proof. apply Permutation_length_1_inv, sort_perm. Qed.

Lemma Add_NewJIT (srt : Sorter) (now : instant) (i : JITItem) :
  Add srt i (NewJIT now) =
    Ok {| queue := [i]; changed := Some 1%nat; nextMu := None;
          closed := [0%nat]; made := 2; allocs := 0; clock := now |}.
Proof.
  unfold Add. rewrite (add_empty srt i (NewJIT now) 0%nat eq_refl eq_refl).
  now rewrite sort_singleton.
Qed.

Lemma Schedule_NewJIT (srt : Sorter) (now : instant) (p : item) (t : instant) :
  Schedule srt p t (NewJIT now) =
    Ok {| queue := [jitItem 0 p t]; changed := Some 1%nat; nextMu := None;
          closed := [0%nat]; made := 2; allocs := 1; clock := now |}.
Proof.
  unfold Schedule, Add.
  rewrite (add_empty srt _ (set_allocs 1 (NewJIT now)) 0%nat eq_refl eq_refl).
  now rewrite sort_singleton.
Qed.

(** C9: [Next] unwraps through [hasItem] only.  An entry made by
    [Schedule(p, t)] comes out as the raw payload [p]; an item given to
    [Add] comes out as the item itself, unless its own type implements
    [getItem], in which case what [getItem] answers comes out.  The first
    two parts run a fresh queue to the delivery; the third holds for every
    delivery in every state. *)
Theorem Next_unwraps_hasItem_only (srt : Sorter) (now : instant) (d : nat) :
  (forall p t, t < now + Z.of_nat d ->
     exists s, exec srt (NewJIT now) [call_Schedule p t; tick d; call_Next; run_loop] =
               steps s [Next_returns (Some (jitItem 0 p t)) (from_item p)]) /\
  (forall i, Time i < now + Z.of_nat d ->
     exists s, exec srt (NewJIT now) [call_Add i; tick d; call_Next; run_loop] =
               steps s [Next_returns (Some i)
                          (match getItem i with
                           | Some p => from_item p
                           | None => from_JITItem i
                           end)]) /\
  (forall s e s' o i v,
     step srt s e = steps s' o -> In (Next_returns (Some i) v) o ->
     v = match getItem i with
         | Some p => from_item p
         | None => from_JITItem i
         end).
Proof.
  split; [|split].
  - intros p t Ht. eexists. cbn [exec step]. rewrite Schedule_NewJIT. cbn. unfold Before.
    destruct (Z.ltb_spec t (now + Z.of_nat d)); [reflexivity | lia].
  - intros i Ht. eexists. cbn [exec step]. rewrite Add_NewJIT. cbn. unfold Before.
    destruct (Z.ltb_spec (Time i) (now + Z.of_nat d)); [reflexivity | lia].
  - intros s e s' o i v Hstep Hin.
    now destruct (step_returns srt s s' e o (Some i) v Hstep Hin) as (-> & _).
Qed.

(** ** Delivery order *)

Lemma added_fields (q' : list JITItem) (b : bool) (c : chan) (s : state) :
  changed s = Some c ->
  queue (added q' b c s) = q' /\ changed (added q' b c s) <> None /\
  nextMu (added q' b c s) = nextMu s /\ clock (added q' b c s) = clock s.
Proof. intros Hc. unfold added. destruct b; cbn; repeat split; congruence. Qed.

Lemma insert_step (srt : Sorter) (s : state) (e : event) :
  wf s -> changed s <> None -> is_insert e = true ->
  exists s',
    step srt s e = steps s' [] /\ wf s' /\ changed s' <> None /\
    nextMu s' = nextMu s /\ clock s' = clock s /\
    Permutation (map key (queue s) ++ [expected e]) (map key (queue s')).
Proof.
  intros Hwf Hlive He. destruct (changed s) as [c|] eqn:Hc; [clear Hlive | contradiction].
  destruct e as [i | p t | | | | | | | d]; try discriminate; cbn [step].
  - destruct (add_live srt i s c) as (q' & Hadd & Hperm & _);
      [apply Hwf | exact Hc | now apply Hwf |].
    unfold Add. rewrite Hadd. cbn [of_res]. eexists. split; [reflexivity|].
    destruct (added_fields q' (head_changed (queue s) q') c s Hc) as (Hq & Hl & Hn & Hk).
    split; [exact (wf_add srt i s _ Hwf Hadd)|].
    split; [exact Hl|]. split; [exact Hn|]. split; [exact Hk|].
    rewrite Hq, <- Hperm, map_app. apply Permutation_refl.
  - set (s0 := set_allocs (S (allocs s)) s).
    assert (Hwf0 : wf s0) by now apply wf_set_allocs.
    destruct (add_live srt (jitItem (allocs s) p t) s0 c) as (q' & Hadd & Hperm & _);
      [apply Hwf0 | exact Hc | now apply Hwf0 |].
    unfold Schedule, Add. fold s0. rewrite Hadd. cbn [of_res]. eexists. split; [reflexivity|].
    destruct (added_fields q' (head_changed (queue s0) q') c s0 Hc) as (Hq & Hl & Hn & Hk).
    split; [exact (wf_add srt _ s0 _ Hwf0 Hadd)|].
    split; [exact Hl|]. split; [exact Hn|]. split; [exact Hk|].
    rewrite Hq, <- Hperm, map_app. apply Permutation_refl.
Qed.

Lemma inserts_exec (srt : Sorter) (ins : list event) (s : state) :
  wf s -> changed s <> None -> forallb is_insert ins = true ->
  exists s',
    exec srt s ins = steps s' [] /\ wf s' /\ changed s' <> None /\
    nextMu s' = nextMu s /\ clock s' = clock s /\
    Permutation (map key (queue s) ++ map expected ins) (map key (queue s')).
Proof.
  revert s. induction ins as [|e ins IH]; intros s Hwf Hlive Hins; cbn in *.
  - exists s. rewrite app_nil_r.
    split; [reflexivity|]. split; [exact Hwf|]. split; [exact Hlive|]. auto.
  - apply andb_true_iff in Hins as [He Hins].
    destruct (insert_step srt s e Hwf Hlive He) as (s1 & Hstep & Hwf1 & Hl1 & Hn1 & Hk1 & Hp1).
    destruct (IH s1 Hwf1 Hl1 Hins) as (s2 & Hexec & Hwf2 & Hl2 & Hn2 & Hk2 & Hp2).
    exists s2. rewrite Hstep, Hexec.
    split; [reflexivity|]. split; [exact Hwf2|]. split; [exact Hl2|].
    split; [congruence|]. split; [congruence|].
    rewrite <- Hp2, <- Hp1, <- app_assoc. reflexivity.
Qed.

Lemma drain_exec (srt : Sorter) (l : list JITItem) (s : state) (c : chan) :
  queue s = l -> changed s = Some c -> nextMu s = None ->
  Forall (fun i => Time i < clock s) l ->
  exec srt s (drain (length l)) = steps (set_queue [] s) (map delivered l).
Proof.
  destruct s as [q ch p cl m a t]. cbn. intros -> -> ->. unfold set_queue. cbn.
  induction l as [|h tl IH]; intros Hall.
  - reflexivity.
  - inversion Hall as [|? ? Hh Htl]; subst.
    cbn. unfold Before. cbn.
    destruct (Z.ltb_spec (Time h) t) as [_|Hge]; [|lia]. cbn.
    unfold set_nextMu, set_queue. cbn.
    change (concat (repeat [call_Next; run_loop] (length tl))) with (drain (length tl)).
    rewrite (IH Htl). reflexivity.
Qed.

(** C2: the order property.  Take any sequence of [Add] and [Schedule]
    calls on a fresh queue, let the clock pass every due time, and call
    [Next] once per inserted entry.  Every call returns at once; together
    they hand out exactly the inserted payloads, each with its due time,
    and the due times come out in non-decreasing order. *)
Theorem order_property (srt : Sorter) (now : instant) (ins : list event) (d : nat) :
  forallb is_insert ins = true ->
  (forall e, In e ins -> due e < now + Z.of_nat d) ->
  exists s l,
    exec srt (NewJIT now) (ins ++ tick d :: drain (length ins)) =
      steps s (map delivered l) /\
    StronglySorted le_time l /\
    Permutation (map key l) (map expected ins) /\
    queue s = [].
Proof.
  intros Hins Hdue.
  destruct (inserts_exec srt ins (NewJIT now) (wf_NewJIT now)) as
    (s1 & Hexec & Hwf1 & Hl1 & Hn1 & Hk1 & Hp1); [discriminate | exact Hins |].
  cbn in Hp1, Hn1, Hk1.
  destruct (changed s1) as [c|] eqn:Hc; [clear Hl1 | contradiction].
  assert (Hlen : length ins = length (queue s1)).
  { apply Permutation_length in Hp1. now rewrite !length_map in Hp1. }
  set (s2 := set_clock (clock s1 + Z.of_nat d) s1).
  assert (Hall : Forall (fun i => Time i < clock s2) (queue s1)).
  { apply Forall_forall. intros i Hi. cbn. rewrite Hk1.
    assert (Hin : In (key i) (map expected ins)).
    { apply (Permutation_in _ (Permutation_sym Hp1)). now apply in_map. }
    apply in_map_iff in Hin as (e & He & Hine).
    apply (f_equal fst) in He. cbn in He. rewrite <- He. now apply Hdue. }
  exists (set_queue [] s2), (queue s1).
  rewrite exec_app, Hexec. cbn [exec step]. fold s2. rewrite Hlen.
  rewrite (drain_exec srt (queue s1) s2 c eq_refl Hc Hn1 Hall).
  split; [reflexivity|]. split; [|split; [now apply Permutation_sym | reflexivity]].
  apply Sorted_StronglySorted; [|apply Hwf1].
  intros a b c'. apply le_time_trans.
Qed.

Lemma order_property_witness :
  exists s l,
    exec insertion (NewJIT 0)
      ([call_Schedule (opaque 1) 50; call_Schedule (opaque 2) 10;
        call_Add (mkJITItem (extern_at 0) 30 None)] ++
       tick 60 :: drain 3) = steps s (map delivered l) /\
    StronglySorted le_time l /\
    Permutation (map key l)
      (map expected [call_Schedule (opaque 1) 50; call_Schedule (opaque 2) 10;
                     call_Add (mkJITItem (extern_at 0) 30 None)]) /\
    queue s = [].
Proof.
  apply (order_property insertion 0
           [call_Schedule (opaque 1) 50; call_Schedule (opaque 2) 10;
            call_Add (mkJITItem (extern_at 0) 30 None)] 60).
  - reflexivity.
  - intros e [<- | [<- | [<- | []]]]; reflexivity.
Defined.

(** *** Any schedule of the consumer *)

Lemma consumer_step (srt : Sorter) (s s' : state) (e : event) (o : list output) :
  is_consumer e = true -> head_held s -> step srt s e = steps s' o ->
  head_held s' /\ queue s = deliveries o ++ queue s'.
Proof.
  intros He Hh. destruct e as [i | i t | | | | | | | d]; try discriminate; cbn.
  - now intros [= <- <-].
  - destruct (nextMu s); [discriminate|]. intros [= <- <-]. split; [|reflexivity].
    intros i. discriminate.
  - destruct (nextMu s) as [[carried | ch | i ch t]|] eqn:Hp; try discriminate.
    destruct (changed s) as [ch|] eqn:Hc.
    + destruct (queue s) as [|h tl] eqn:Hq.
      * rewrite (loop_body_empty carried s ch Hc Hq). cbn. intros [= <- <-].
        split; [|cbn; now rewrite ?Hq]. intros i. cbn.
        destruct carried as [j|]; [|discriminate].
        destruct (Hh j) as (tl & Htl); [now rewrite Hp | congruence].
      * rewrite (loop_body_head carried s ch h tl Hc Hq).
        destruct (Before (Time h) (clock s)); cbn; intros [= <- <-].
        -- split; [intros i; discriminate | cbn; now rewrite ?Hq].
        -- split; [|cbn; now rewrite ?Hq]. intros i [= <-]. cbn. eauto.
    + rewrite (loop_body_destroyed carried s Hc). cbn. intros [= <- <-].
      split; [intros i; discriminate | reflexivity].
  - destruct (nextMu s) as [[carried | ch | i ch t]|] eqn:Hp; try discriminate;
      (destruct (is_closed ch s); [|discriminate]); intros [= <- <-];
      (split; [|reflexivity]); intros j; cbn; [discriminate|].
    intros [= <-]. apply Hh. now rewrite Hp.
  - destruct (nextMu s) as [[carried | ch | i ch t]|] eqn:Hp; try discriminate.
    destruct (t <=? clock s); [|discriminate].
    destruct (Hh i) as (tl & Hq); [now rewrite Hp|].
    rewrite (timer_case_head i i tl s Hq), same_refl. cbn. intros [= <- <-].
    split; [intros j; discriminate | cbn; now rewrite ?Hq].
  - intros [= <- <-]. split; [exact Hh | reflexivity].
Qed.

Lemma deliveries_app (o o' : list output) :
  deliveries (o ++ o') = deliveries o ++ deliveries o'.
Proof. apply flat_map_app. Qed.

(** Whatever the consumer does and whenever the clock moves, what it hands
    out is a front part of the queue, in the queue's order; what it has not
    handed out is still stored. *)
Lemma consumer_exec (srt : Sorter) (es : list event) (s s' : state) (o : list output) :
  forallb is_consumer es = true -> head_held s -> exec srt s es = steps s' o ->
  queue s = deliveries o ++ queue s'.
Proof.
  revert s o. induction es as [|e es IH]; intros s o Hes Hh; cbn in *.
  - now intros [= <- <-].
  - apply andb_true_iff in Hes as [He Hes].
    destruct (step srt s e) as [| |s1 o1] eqn:E; try discriminate.
    destruct (exec srt s1 es) as [| |s2 o2] eqn:E'; try discriminate.
    intros [= <- <-].
    destruct (consumer_step srt s s1 e o1 He Hh E) as [Hh1 Hq1].
    rewrite deliveries_app, <- app_assoc, <- (IH s1 o2 Hes Hh1 E'). exact Hq1.
Qed.

(** X1: after any inserts on a fresh queue, every schedule of the
    consumer delivers in non-decreasing order of due time, and each entry
    delivered is due no later than any entry still stored. *)
Theorem deliveries_in_order (srt : Sorter) (now : instant) (ins es : list event)
    (s : state) (o : list output) :
  forallb is_insert ins = true -> forallb is_consumer es = true ->
  exec srt (NewJIT now) (ins ++ es) = steps s o ->
  StronglySorted le_time (deliveries o ++ queue s) /\
  Permutation (map key (deliveries o ++ queue s)) (map expected ins).
Proof.
  intros Hins Hes.
  destruct (inserts_exec srt ins (NewJIT now) (wf_NewJIT now)) as
    (s1 & Hexec & Hwf1 & _ & Hn1 & _ & Hp1); [discriminate | exact Hins |].
  rewrite exec_app, Hexec.
  destruct (exec srt s1 es) as [| |s2 o2] eqn:E; try discriminate.
  intros [= <- <-]. cbn [app].
  assert (Hh : head_held s1) by (intros i; rewrite Hn1; discriminate).
  rewrite <- (consumer_exec srt es s1 s2 o2 Hes Hh E). split.
  - apply Sorted_StronglySorted; [|apply Hwf1]. intros a b c. apply le_time_trans.
  - now apply Permutation_sym.
Qed.

Lemma deliveries_in_order_witness :
  StronglySorted le_time
    ([jitItem 1 (opaque 2) 10] ++ [jitItem 0 (opaque 1) 50]) /\
  Permutation
    (map key ([jitItem 1 (opaque 2) 10] ++ [jitItem 0 (opaque 1) 50]))
    (map expected [call_Schedule (opaque 1) 50; call_Schedule (opaque 2) 10]).
Proof.
  apply (deliveries_in_order insertion 0
           [call_Schedule (opaque 1) 50; call_Schedule (opaque 2) 10]
           [call_Next; run_loop; tick 4; call_IsEmpty; tick 6; recv_timer]
           {| queue := [jitItem 0 (opaque 1) 50]; changed := Some 2%nat; nextMu := None;
              closed := [1%nat; 0%nat]; made := 3; allocs := 2; clock := 10 |}
           [IsEmpty_returns false;
            Next_returns (Some (jitItem 1 (opaque 2) 10)) (from_item (opaque 2))]);
    vm_compute; reflexivity.
Defined.

(** ** Further properties of the queue *)

(** *** Panics *)



(** *** Nothing is lost *)



(** X4: a call of [Next] that delivers takes exactly the head off the queue:
    the entry it returns is [==] to the head, what follows the head stays
    in place, the channel is neither closed nor replaced, and [nextMu] is
    free again. *)
Theorem delivery_pops_the_head (srt : Sorter) (s s' : state) (e : event) (o : list output)
    (i : JITItem) (v : any) :
  step srt s e = steps s' o -> In (Next_returns (Some i) v) o ->
  exists h tl,
    queue s = h :: tl /\ same i h = true /\ queue s' = tl /\
    changed s' = changed s /\ closed s' = closed s /\ nextMu s' = None.
Proof.
  intros Hstep Hin.
  destruct (step_returns srt s s' e o (Some i) v Hstep Hin)
    as (_ & s0 & -> & [(carried & _ & _ & Hbody) | (j & ch & t & _ & _ & _ & Hcase)]).
  - destruct (loop_body_ret carried (Some i) s s0 Hbody)
      as [(_ & [=] & _) | (ch & h & tl & _ & Hq & [= ->] & _ & ->)].
    exists h, tl. cbn. rewrite same_refl. repeat split; trivial.
  - destruct (timer_case_ret j (Some i) s s0 Hcase) as (h & tl & Hq & Hsame & [= <-] & ->).
    exists h, tl. cbn. repeat split; trivial.
Qed.

Lemma delivery_pops_the_head_witness :
  exists h tl,
    [jitItem 1 (opaque 2) 10; jitItem 0 (opaque 1) 50] = h :: tl /\
    same (jitItem 1 (opaque 2) 10) h = true /\ [jitItem 0 (opaque 1) 50] = tl /\
    Some 2%nat = Some 2%nat /\ [1%nat; 0%nat] = [1%nat; 0%nat] /\ @None pc = None.
Proof.
  apply (delivery_pops_the_head insertion
           {| queue := [jitItem 1 (opaque 2) 10; jitItem 0 (opaque 1) 50];
              changed := Some 2%nat; nextMu := Some (at_loop None);
              closed := [1%nat; 0%nat]; made := 3; allocs := 2; clock := 11 |}
           {| queue := [jitItem 0 (opaque 1) 50];
              changed := Some 2%nat; nextMu := None;
              closed := [1%nat; 0%nat]; made := 3; allocs := 2; clock := 11 |}
           run_loop
           [Next_returns (Some (jitItem 1 (opaque 2) 10)) (from_item (opaque 2))]
           (jitItem 1 (opaque 2) 10) (from_item (opaque 2))).
  - vm_compute. reflexivity.
  - left. reflexivity.
Defined.

(** *** No spurious return *)

Lemma empty_live_step (srt : Sorter) (s s' : state) (e : event) (o : list output) :
  is_consumer e = true -> changed s <> None -> queue s = [] ->
  step srt s e = steps s' o ->
  changed s' = changed s /\ queue s' = [] /\
  forall next v, ~ In (Next_returns next v) o.
Proof.
  intros He Hlive Hq. destruct (changed s) as [c|] eqn:Hc; [clear Hlive | contradiction].
  destruct e as [i | i t | | | | | | | d]; try discriminate; cbn.
  - intros [= <- <-]. repeat split; trivial. intros next v [[=] | []].
  - destruct (nextMu s); [discriminate|]. intros [= <- <-]. cbn. auto.
  - destruct (nextMu s) as [[carried | ch | i ch t]|]; try discriminate.
    rewrite (loop_body_empty carried s c Hc Hq). cbn. intros [= <- <-]. cbn. auto.
  - destruct (nextMu s) as [[carried | ch | i ch t]|]; try discriminate;
      (destruct (is_closed ch s); [|discriminate]); intros [= <- <-]; cbn; auto.
  - destruct (nextMu s) as [[carried | ch | i ch t]|]; try discriminate.
    destruct (t <=? clock s); [|discriminate].
    rewrite (timer_case_empty i s Hq). cbn. intros [= <- <-]. cbn. auto.
  - intros [= <- <-]. cbn. auto.
Qed.

(** X5: while a live queue is empty, [Next] does not return: whatever the
    consumer does and however long the clock runs, without a producer and
    without [Destroy] no call of [Next] comes back, not even with nil. *)
Theorem Next_waits_on_empty_queue (srt : Sorter) (es : list event) (s s' : state)
    (o : list output) :
  changed s <> None -> queue s = [] -> forallb is_consumer es = true ->
  exec srt s es = steps s' o ->
  (forall next v, ~ In (Next_returns next v) o) /\ queue s' = [] /\ changed s' = changed s.
Proof.
  revert s o. induction es as [|e es IH]; intros s o Hlive Hq Hes; cbn in *.
  - intros [= <- <-]. auto.
  - apply andb_true_iff in Hes as [He Hes].
    destruct (step srt s e) as [| |s1 o1] eqn:E; try discriminate.
    destruct (exec srt s1 es) as [| |s2 o2] eqn:E'; try discriminate.
    intros [= <- <-].
    destruct (empty_live_step srt s s1 e o1 He Hlive Hq E) as (Hc1 & Hq1 & Ho1).
    destruct (IH s1 o2) as (Ho2 & Hq2 & Hc2); trivial; [congruence|].
    split; [|split; [exact Hq2 | congruence]].
    intros next v Hin. apply in_app_or in Hin as [Hin | Hin].
    + exact (Ho1 next v Hin).
    + exact (Ho2 next v Hin).
Qed.

Lemma Next_waits_on_empty_queue_witness :
  (forall next v, ~ In (Next_returns next v) [IsEmpty_returns true]) /\
  queue {| queue := []; changed := Some 0%nat; nextMu := Some (at_recv 0%nat);
           closed := []; made := 1; allocs := 0; clock := 9 |} = [] /\
  changed {| queue := []; changed := Some 0%nat; nextMu := Some (at_recv 0%nat);
             closed := []; made := 1; allocs := 0; clock := 9 |} = changed (NewJIT 0).
Proof.
  apply (Next_waits_on_empty_queue insertion
           [call_Next; tick 4; run_loop; call_IsEmpty; tick 5] (NewJIT 0)).
  - discriminate.
  - reflexivity.
  - reflexivity.
  - vm_compute. reflexivity.
Defined.

(** *** The notification protocol *)

Lemma loop_body_frame (i : option JITItem) (s : state) (x : exit) :
  loop_body i s = Ok x ->
  closed (exit_state x) = closed s /\ changed (exit_state x) = changed s.
Proof.
  destruct (changed s) as [ch|] eqn:Hc.
  - destruct (queue s) as [|h tl] eqn:Hq.
    + rewrite (loop_body_empty i s ch Hc Hq). intros [= <-]. cbn. auto.
    + rewrite (loop_body_head i s ch h tl Hc Hq).
      destruct (Before (Time h) (clock s)); intros [= <-]; cbn; auto.
  - rewrite (loop_body_destroyed i s Hc). intros [= <-]. cbn. auto.
Qed.

Lemma timer_case_frame (i : JITItem) (s : state) (x : exit) :
  timer_case i s = Ok x ->
  closed (exit_state x) = closed s /\ changed (exit_state x) = changed s.
Proof.
  destruct (queue s) as [|h tl] eqn:Hq.
  - rewrite (timer_case_empty i s Hq). intros [= <-]. cbn. auto.
  - rewrite (timer_case_head i h tl s Hq).
    destruct (same i h); intros [= <-]; cbn; auto.
Qed.

Lemma of_exit_frame (x : exit) (s' : state) (o : list output) :
  of_exit (Ok x) = steps s' o ->
  closed s' = closed (exit_state x) /\ changed s' = changed (exit_state x).
Proof. destruct x; cbn; intros [= <- _]; auto. Qed.

(** A step closes at most one channel, and then the one that was current;
    only the producers' calls and [Destroy] do. *)
Lemma step_closed (srt : Sorter) (s s' : state) (e : event) (o : list output) :
  wf s -> step srt s e = steps s' o ->
  closed s' = closed s \/
  (exists c, changed s = Some c /\ closed s' = c :: closed s /\ is_consumer e = false).
Proof.
  intros Hwf.
  assert (Hadd : forall i s0, changed s0 = changed s -> closed s0 = closed s ->
                 Sorted le_time (queue s0) ->
                 forall s1, add srt i s0 = Ok s1 ->
                 closed s1 = closed s \/
                 (exists c, changed s = Some c /\ closed s1 = c :: closed s)).
  { intros i s0 Hc0 Hcl0 Hs0 s1. destruct (changed s) as [c|] eqn:Hc.
    - destruct (add_live srt i s0 c) as (q' & -> & _); trivial.
      { rewrite <- (wf_open s Hwf c Hc). unfold is_closed. now rewrite Hcl0. }
      intros [= <-]. unfold added.
      destruct (head_changed (queue s0) q'); cbn; [right | now left].
      exists c. now rewrite Hcl0.
    - rewrite add_destroyed by exact Hc0. intros [= <-]. now left. }
  destruct e as [i | i t | | | | | | | d]; cbn.
  - unfold Add. destruct (add srt i s) as [s1|p] eqn:E; cbn; [|discriminate].
    intros [= <- _].
    destruct (Hadd i s eq_refl eq_refl (wf_sorted s Hwf) s1 E) as [H | (c & Hc & H)];
      [now left | right; eauto].
  - unfold Schedule, Add.
    destruct (add srt (jitItem (allocs s) i t) (set_allocs (S (allocs s)) s)) as [s1|p] eqn:E;
      cbn; [|discriminate].
    intros [= <- _].
    destruct (Hadd (jitItem (allocs s) i t) (set_allocs (S (allocs s)) s)
                eq_refl eq_refl (wf_sorted s Hwf) s1 E) as [H | (c & Hc & H)];
      [now left | right; eauto].
  - intros [= <- _]. now left.
  - destruct (changed s) as [c|] eqn:Hc.
    + rewrite (Destroy_live s c Hc) by now apply Hwf. cbn. intros [= <- _].
      right. exists c. auto.
    + now rewrite (Destroy_destroyed s Hc).
  - destruct (nextMu s); [discriminate|]. intros [= <- _]. now left.
  - destruct (nextMu s) as [[i | ch | i ch t]|]; try discriminate.
    destruct (loop_body i s) as [x|p] eqn:E; [|discriminate].
    intros Hx. left. destruct (of_exit_frame x s' o Hx) as [-> _].
    now destruct (loop_body_frame i s x E).
  - destruct (nextMu s) as [[i | ch | i ch t]|]; try discriminate;
      (destruct (is_closed ch s); [|discriminate]); intros [= <- _]; now left.
  - destruct (nextMu s) as [[i | ch | i ch t]|]; try discriminate.
    destruct (t <=? clock s); [|discriminate].
    destruct (timer_case i s) as [x|p] eqn:E; [|discriminate].
    intros Hx. left. destruct (of_exit_frame x s' o Hx) as [-> _].
    now destruct (timer_case_frame i s x E).
  - intros [= <- _]. now left.
Qed.

Lemma exec_closed_once (srt : Sorter) (es : list event) (s s' : state) (o : list output) :
  wf s -> NoDup (closed s) -> exec srt s es = steps s' o -> NoDup (closed s').
Proof.
  revert s o. induction es as [|e es IH]; intros s o Hwf Hnd; cbn.
  - now intros [= <- _].
  - destruct (step srt s e) as [| |s1 o1] eqn:E; try discriminate.
    destruct (exec srt s1 es) as [| |s2 o2] eqn:E'; try discriminate.
    intros [= <- _]. apply (IH s1 o2); trivial.
    + exact (step_wf srt s s1 e o1 Hwf E).
    + destruct (step_closed srt s s1 e o1 Hwf E) as [-> | (c & Hc & -> & _)]; trivial.
      constructor; [|exact Hnd]. intros Hin. apply (is_closed_In c s) in Hin.
      rewrite (wf_open s Hwf c Hc) in Hin. discriminate.
Qed.

(** X6: the notification protocol, on every state a program reaches: no channel
    is closed twice; the channel installed in [q.changed] is open; and the
    channel on which a consumer waits is the installed one or is already
    closed, so a notification that fired while the consumer was on its way
    to the wait is never missed. *)
Theorem no_missed_notification (srt : Sorter) (s : state) :
  reachable srt s ->
  NoDup (closed s) /\
  (forall c, changed s = Some c -> ~ In c (closed s)) /\
  (forall ch, captured (nextMu s) = Some ch ->
     changed s = Some ch \/ is_closed ch s = true).
Proof.
  intros Hr. pose proof (reachable_wf srt s Hr) as Hwf.
  destruct Hr as (now & es & o & Hexec). split; [|split].
  - apply (exec_closed_once srt es (NewJIT now) s o); [apply wf_NewJIT | constructor | exact Hexec].
  - intros c Hc Hin. apply (is_closed_In c s) in Hin.
    rewrite (wf_open s Hwf c Hc) in Hin. discriminate.
  - intros ch Hch. destruct (wf_captured s Hwf ch Hch) as [H | H]; [now left | right].
    now apply is_closed_In.
Qed.

Lemma no_missed_notification_witness :
  NoDup [1%nat; 0%nat] /\
  (forall c, Some 2%nat = Some c -> ~ In c [1%nat; 0%nat]) /\
  (forall ch, Some 0%nat = Some ch -> Some 2%nat = Some ch \/
     is_closed ch
       {| queue := [jitItem 1 nil 3; jitItem 0 nil 5]; changed := Some 2%nat;
          nextMu := Some (at_recv 0%nat);
          closed := [1%nat; 0%nat]; made := 3; allocs := 2; clock := 0 |} = true).
Proof.
  apply (no_missed_notification insertion
           {| queue := [jitItem 1 nil 3; jitItem 0 nil 5]; changed := Some 2%nat;
              nextMu := Some (at_recv 0%nat);
              closed := [1%nat; 0%nat]; made := 3; allocs := 2; clock := 0 |}).
  exists 0, [call_Next; run_loop; call_Schedule nil 5; call_Schedule nil 3], [].
  vm_compute. reflexivity.
Defined.

(** *** Waking the consumer *)

Lemma exec_cons (srt : Sorter) (s s1 : state) (e : event) (es : list event) (o1 : list output) :
  step srt s e = steps s1 o1 ->
  exec srt s (e :: es) =
    match exec srt s1 es with
    | steps s2 o2 => steps s2 (o1 ++ o2)
    | stop => stop
    end.
Proof. intros H. cbn. now rewrite H. Qed.

Lemma step_run_loop_pop (srt : Sorter) (s : state) (carried : option JITItem) (c : chan)
    (h : JITItem) (tl : list JITItem) :
  nextMu s = Some (at_loop carried) -> changed s = Some c -> queue s = h :: tl ->
  Time h < clock s ->
  step srt s run_loop =
    steps (set_nextMu None (set_queue tl s)) [Next_returns (Some h) (unwrap h)].
Proof.
  intros Hp Hc Hq Ht. cbn. rewrite Hp, (loop_body_head carried s c h tl Hc Hq).
  unfold Before. destruct (Z.ltb_spec (Time h) (clock s)); [reflexivity | lia].
Qed.

Lemma step_run_loop_wait (srt : Sorter) (s : state) (carried : option JITItem) (c : chan)
    (h : JITItem) (tl : list JITItem) :
  nextMu s = Some (at_loop carried) -> changed s = Some c -> queue s = h :: tl ->
  clock s <= Time h ->
  step srt s run_loop = steps (set_nextMu (Some (at_select h c (Time h))) s) [].
Proof.
  intros Hp Hc Hq Ht. cbn. rewrite Hp, (loop_body_head carried s c h tl Hc Hq).
  unfold Before. destruct (Z.ltb_spec (Time h) (clock s)); [lia|]. cbn.
  unfold Until. now replace (clock s + (Time h - clock s)) with (Time h) by lia.
Qed.

Lemma step_recv_timer_pop (srt : Sorter) (s : state) (i h : JITItem) (ch : chan)
    (t : instant) (tl : list JITItem) :
  nextMu s = Some (at_select i ch t) -> t <= clock s -> queue s = h :: tl ->
  same i h = true ->
  step srt s recv_timer =
    steps (set_nextMu None (set_queue tl s)) [Next_returns (Some i) (unwrap i)].
Proof.
  intros Hp Ht Hq Hsame. cbn. rewrite Hp.
  destruct (Z.leb_spec t (clock s)); [|lia].
  now rewrite (timer_case_head i h tl s Hq), Hsame.
Qed.

(** The channel a waiting consumer holds is closed once a notification has
    fired on the channel that was current. *)
Lemma captured_closed_after (s : state) (c ch : chan) (q' : list JITItem) :
  wf s -> changed s = Some c -> captured (nextMu s) = Some ch ->
  is_closed ch (make_changed (set_closed (c :: closed s) (set_queue q' s))) = true.
Proof.
  intros Hwf Hc Hch. apply is_closed_In. cbn.
  destruct (wf_captured s Hwf ch Hch) as [E | Hin]; [left; congruence | now right].
Qed.

(** X7: no indefinite delay under insertion: a consumer blocked on an empty
    queue is woken by the insertion of an entry, and if the entry is already
    due its call of [Next] returns it in the very next pass of the loop. *)
Theorem insertion_wakes_blocked_consumer (srt : Sorter) (s : state) (i : JITItem)
    (ch : chan) :
  reachable srt s -> changed s <> None -> queue s = [] ->
  nextMu s = Some (at_recv ch) -> Time i < clock s ->
  exists s',
    exec srt s [call_Add i; recv_changed; run_loop] =
      steps s' [Next_returns (Some i) (unwrap i)] /\
    queue s' = [] /\ nextMu s' = None.
Proof.
  intros Hr Hlive Hq Hp Ht. apply reachable_wf in Hr.
  destruct (changed s) as [c|] eqn:Hc; [clear Hlive | contradiction].
  set (s1 := make_changed (set_closed (c :: closed s) (set_queue [i] s))).
  assert (H1 : step srt s (call_Add i) = steps s1 []).
  { cbn. unfold Add. rewrite (add_empty srt i s c Hc Hq), sort_singleton.
    rewrite (notify_live (set_queue [i] s) c Hc (wf_open s Hr c Hc)). reflexivity. }
  set (s2 := set_nextMu (Some (at_loop None)) s1).
  assert (H2 : step srt s1 recv_changed = steps s2 []).
  { cbn [step]. change (nextMu s1) with (nextMu s). rewrite Hp.
    unfold s1 at 1. rewrite (captured_closed_after s c ch [i] Hr Hc); [reflexivity|].
    now rewrite Hp. }
  assert (H3 : step srt s2 run_loop =
               steps (set_nextMu None (set_queue [] s2)) [Next_returns (Some i) (unwrap i)]).
  { apply (step_run_loop_pop srt s2 None (made s) i []); trivial. }
  eexists. rewrite (exec_cons srt s s1 _ _ [] H1), (exec_cons srt s1 s2 _ _ [] H2),
    (exec_cons srt s2 _ _ _ _ H3). cbn. auto.
Qed.

Lemma insertion_wakes_blocked_consumer_witness :
  exists s',
    exec insertion
      {| queue := []; changed := Some 0%nat; nextMu := Some (at_recv 0%nat);
         closed := []; made := 1; allocs := 0; clock := 9 |}
      [call_Add (jitItem 4 (opaque 8) 5); recv_changed; run_loop] =
      steps s' [Next_returns (Some (jitItem 4 (opaque 8) 5)) (unwrap (jitItem 4 (opaque 8) 5))] /\
    queue s' = [] /\ nextMu s' = None.
Proof.
  apply (insertion_wakes_blocked_consumer insertion
           {| queue := []; changed := Some 0%nat; nextMu := Some (at_recv 0%nat);
              closed := []; made := 1; allocs := 0; clock := 9 |}
           (jitItem 4 (opaque 8) 5) 0%nat).
  - exists 0, [call_Next; tick 4; run_loop; tick 5], []. vm_compute. reflexivity.
  - discriminate.
  - reflexivity.
  - reflexivity.
  - reflexivity.
Defined.

(** X8: [Destroy] unblocks the consumer: on a live queue, wherever a call of
    [Next] stands (or if it only starts afterwards), after [Destroy] it
    leaves with nil in at most two steps, and the queue is empty. *)
Theorem Destroy_unblocks_Next (srt : Sorter) (s : state) :
  reachable srt s -> changed s <> None ->
  exists s',
    exec srt s (call_Destroy :: wake (nextMu s)) =
      steps s' [Next_returns None (from_item nil)] /\
    queue s' = [] /\ changed s' = None /\ nextMu s' = None.
Proof.
  intros Hr Hlive. apply reachable_wf in Hr.
  destruct (changed s) as [c|] eqn:Hc; [clear Hlive | contradiction].
  set (s1 := set_changed None (set_closed (c :: closed s) (set_queue [] s))).
  assert (HD : Destroy s = Ok s1) by (apply Destroy_live; [exact Hc | now apply Hr]).
  assert (H1 : step srt s call_Destroy = steps s1 []) by (cbn; now rewrite HD).
  rewrite (exec_cons srt s s1 _ _ [] H1).
  change (nextMu s) with (nextMu s1).
  rewrite (Next_on_destroyed srt s1 (wf_Destroy s s1 Hr HD) eq_refl).
  eexists. split; [reflexivity|]. cbn. auto.
Qed.

Lemma Destroy_unblocks_Next_witness :
  exists s',
    exec insertion
      {| queue := [jitItem 0 nil 50]; changed := Some 1%nat;
         nextMu := Some (at_select (jitItem 0 nil 50) 1%nat 50);
         closed := [0%nat]; made := 2; allocs := 1; clock := 0 |}
      [call_Destroy; recv_changed; run_loop] =
      steps s' [Next_returns None (from_item nil)] /\
    queue s' = [] /\ changed s' = None /\ nextMu s' = None.
Proof.
  apply (Destroy_unblocks_Next insertion
           {| queue := [jitItem 0 nil 50]; changed := Some 1%nat;
              nextMu := Some (at_select (jitItem 0 nil 50) 1%nat 50);
              closed := [0%nat]; made := 2; allocs := 1; clock := 0 |}).
  - exists 0, [call_Schedule nil 50; call_Next; run_loop], []. vm_compute. reflexivity.
  - discriminate.
Defined.

Lemma sort_new_minimum (srt : Sorter) (q : list JITItem) (i : JITItem) :
  (forall x, In x q -> Time i < Time x) ->
  exists tl, sort_Sort srt (q ++ [i]) = i :: tl /\ Permutation q tl.
Proof.
  intros Hmin.
  pose proof (sort_perm srt (q ++ [i])) as Hperm.
  pose proof (sort_sorted srt (q ++ [i])) as Hsorted.
  apply Sorted_StronglySorted in Hsorted; [|intros a b c; apply le_time_trans].
  destruct (sort_Sort srt (q ++ [i])) as [|head tl].
  { apply Permutation_length in Hperm. rewrite length_app in Hperm. simpl in Hperm. lia. }
  assert (E : head = i).
  { assert (Hi : In i (head :: tl)).
    { apply (Permutation_in _ Hperm), in_or_app. right. now left. }
    destruct Hi as [E | Hi]; [exact E|].
    assert (Hh : In head (q ++ [i])).
    { apply (Permutation_in _ (Permutation_sym Hperm)). now left. }
    apply in_app_or in Hh as [Hh | [E | []]]; [|now symmetry].
    inversion Hsorted as [|? ? _ Hall]; subst.
    rewrite Forall_forall in Hall. specialize (Hall i Hi). unfold le_time in Hall.
    specialize (Hmin head Hh). lia. }
  subst head. exists tl. split; [reflexivity|].
  assert (H : Permutation tl (q ++ [])).
  { apply Permutation_cons_app_inv with (a := i). now apply Permutation_sym. }
  rewrite app_nil_r in H. now apply Permutation_sym.
Qed.

(** X9: preemption by an earlier entry.  While the consumer waits in the select,
    the insertion of another entry due strictly before the head (and not
    yet due) fires the notification; the consumer wakes, takes the new entry
    as its head, and its call of [Next] returns that entry when the clock
    reaches the entry's due time.  The entries stored before are all still
    there. *)
Theorem earlier_entry_preempts (srt : Sorter) (s : state) (i j h : JITItem)
    (tl : list JITItem) (ch : chan) (t : instant) (d : nat) :
  reachable srt s -> changed s <> None -> queue s = h :: tl ->
  nextMu s = Some (at_select j ch t) ->
  Time i < Time h -> same h i = false ->
  clock s <= Time i -> Time i <= clock s + Z.of_nat d ->
  exists s',
    exec srt s [call_Add i; recv_changed; run_loop; tick d; recv_timer] =
      steps s' [Next_returns (Some i) (unwrap i)] /\
    Permutation (h :: tl) (queue s') /\ nextMu s' = None.
Proof.
  intros Hr Hlive Hq Hp Hih Hsame Hnow Hd. apply reachable_wf in Hr.
  destruct (changed s) as [c|] eqn:Hc; [clear Hlive | contradiction].
  assert (Hmin : forall x, In x (queue s) -> Time i < Time x).
  { pose proof (wf_sorted s Hr) as Hs.
    apply Sorted_StronglySorted in Hs; [|intros a b c'; apply le_time_trans].
    rewrite Hq in *. intros x [<- | Hx]; [exact Hih|].
    inversion Hs as [|? ? _ Hall]; subst. rewrite Forall_forall in Hall.
    specialize (Hall x Hx). unfold le_time in Hall. lia. }
  destruct (sort_new_minimum srt (queue s) i Hmin) as (tl' & Hsort & Hperm).
  destruct (snoc_cases (queue s)) as [E | (l & p & Hl)]; [congruence|].
  assert (Haft : After (Time i) (Time p) = false).
  { unfold After. apply Z.ltb_ge.
    assert (In p (queue s)) by (rewrite Hl; apply in_or_app; right; now left).
    specialize (Hmin p H). lia. }
  set (s1 := make_changed (set_closed (c :: closed s) (set_queue (i :: tl') s))).
  assert (H1 : step srt s (call_Add i) = steps s1 []).
  { destruct (add_sorting srt i p h l tl s c Hc Hl Hq Haft) as (head & tl0 & Hsort' & Hadd).
    rewrite Hsort in Hsort'. injection Hsort' as <- <-.
    cbn. unfold Add. rewrite Hadd, Hsame.
    rewrite (notify_live (set_queue (i :: tl') s) c Hc (wf_open s Hr c Hc)). reflexivity. }
  set (s2 := set_nextMu (Some (at_loop (Some j))) s1).
  assert (H2 : step srt s1 recv_changed = steps s2 []).
  { cbn [step]. change (nextMu s1) with (nextMu s). rewrite Hp.
    unfold s1 at 1. rewrite (captured_closed_after s c ch (i :: tl') Hr Hc); [reflexivity|].
    now rewrite Hp. }
  set (s3 := set_nextMu (Some (at_select i (made s) (Time i))) s2).
  assert (H3 : step srt s2 run_loop = steps s3 []).
  { apply (step_run_loop_wait srt s2 (Some j) (made s) i tl'); trivial. }
  set (s4 := set_clock (clock s3 + Z.of_nat d) s3).
  assert (H4 : step srt s3 (tick d) = steps s4 []) by reflexivity.
  assert (H5 : step srt s4 recv_timer =
               steps (set_nextMu None (set_queue tl' s4)) [Next_returns (Some i) (unwrap i)]).
  { apply (step_recv_timer_pop srt s4 i i (made s) (Time i) tl'); trivial.
    apply same_refl. }
  eexists.
  rewrite (exec_cons srt s s1 _ _ [] H1), (exec_cons srt s1 s2 _ _ [] H2),
    (exec_cons srt s2 s3 _ _ [] H3), (exec_cons srt s3 s4 _ _ [] H4),
    (exec_cons srt s4 _ _ _ _ H5).
  cbn. split; [reflexivity|]. split; [|reflexivity]. now rewrite <- Hq.
Qed.

Lemma earlier_entry_preempts_witness :
  exists s',
    exec insertion
      {| queue := [jitItem 0 (opaque 1) 50]; changed := Some 1%nat;
         nextMu := Some (at_select (jitItem 0 (opaque 1) 50) 1%nat 50);
         closed := [0%nat]; made := 2; allocs := 1; clock := 0 |}
      [call_Add (jitItem 1 (opaque 2) 10); recv_changed; run_loop; tick 10; recv_timer] =
      steps s' [Next_returns (Some (jitItem 1 (opaque 2) 10))
                  (unwrap (jitItem 1 (opaque 2) 10))] /\
    Permutation [jitItem 0 (opaque 1) 50] (queue s') /\ nextMu s' = None.
Proof.
  apply (earlier_entry_preempts insertion
           {| queue := [jitItem 0 (opaque 1) 50]; changed := Some 1%nat;
              nextMu := Some (at_select (jitItem 0 (opaque 1) 50) 1%nat 50);
              closed := [0%nat]; made := 2; allocs := 1; clock := 0 |}
           (jitItem 1 (opaque 2) 10) (jitItem 0 (opaque 1) 50) (jitItem 0 (opaque 1) 50)
           [] 1%nat 50 10).
  - exists 0, [call_Schedule (opaque 1) 50; call_Next; run_loop], []. vm_compute. reflexivity.
  - discriminate.
  - reflexivity.
  - reflexivity.
  - reflexivity.
  - reflexivity.
  - discriminate.
  - discriminate.
Defined.

Lemma sorted_strict_minimum (q' rest : list JITItem) (i : JITItem) :
  Sorted le_time q' -> Permutation (i :: rest) q' ->
  (forall x, In x rest -> Time i < Time x) ->
  exists tl, q' = i :: tl /\ Permutation rest tl.
Proof.
  intros Hsorted Hperm Hmin.
  apply Sorted_StronglySorted in Hsorted; [|intros a b c; apply le_time_trans].
  destruct q' as [|head tl].
  { apply Permutation_length in Hperm. discriminate. }
  assert (E : head = i).
  { assert (Hi : In i (head :: tl)) by (apply (Permutation_in _ Hperm); now left).
    destruct Hi as [E | Hi]; [exact E|].
    assert (Hh : In head (i :: rest)).
    { apply (Permutation_in _ (Permutation_sym Hperm)). now left. }
    destruct Hh as [E | Hh]; [now symmetry|].
    inversion Hsorted as [|? ? _ Hall]; subst.
    rewrite Forall_forall in Hall. specialize (Hall i Hi). unfold le_time in Hall.
    specialize (Hmin head Hh). lia. }
  subst head. exists tl. split; [reflexivity|].
  now apply Permutation_cons_inv in Hperm.
Qed.

(** X10: an insertion behind the head leaves the consumer alone.  When the head
    is due strictly before every other stored entry and before the new
    one, [Add] keeps the head at position 0, closes no channel and installs
    none, on the fast path and on the sorting path alike; a consumer
    waiting for the head keeps its channel and its timer. *)
Theorem later_entry_does_not_notify (srt : Sorter) (s : state) (i h : JITItem)
    (tl : list JITItem) :
  reachable srt s -> changed s <> None -> queue s = h :: tl ->
  (forall x, In x tl -> Time h < Time x) -> Time h < Time i ->
  exists s' tl',
    Add srt i s = Ok s' /\ queue s' = h :: tl' /\ Permutation (i :: tl) tl' /\
    changed s' = changed s /\ closed s' = closed s /\ nextMu s' = nextMu s.
Proof.
  intros Hr Hlive Hq Hmin Hhi. apply reachable_wf in Hr.
  destruct (changed s) as [c|] eqn:Hc; [clear Hlive | contradiction].
  destruct (add_live srt i s c) as (q' & Hadd & Hperm & Hsorted);
    [apply Hr | exact Hc | now apply Hr |].
  destruct (sorted_strict_minimum q' (i :: tl) h Hsorted) as (tl' & -> & Hp').
  { rewrite Hq in Hperm. eapply perm_trans; [|exact Hperm]. cbn.
    apply perm_skip, Permutation_cons_append. }
  { intros x [<- | Hx]; [exact Hhi | now apply Hmin]. }
  exists (set_queue (h :: tl') s), tl'. unfold Add. rewrite Hadd, Hq. cbn.
  rewrite same_refl. cbn. repeat split; trivial.
Qed.

Lemma later_entry_does_not_notify_witness :
  exists s' tl',
    Add insertion (jitItem 1 (opaque 2) 70)
      {| queue := [jitItem 0 (opaque 1) 50]; changed := Some 1%nat;
         nextMu := Some (at_select (jitItem 0 (opaque 1) 50) 1%nat 50);
         closed := [0%nat]; made := 2; allocs := 1; clock := 0 |} = Ok s' /\
    queue s' = jitItem 0 (opaque 1) 50 :: tl' /\
    Permutation [jitItem 1 (opaque 2) 70] tl' /\
    changed s' = Some 1%nat /\ closed s' = [0%nat] /\
    nextMu s' = Some (at_select (jitItem 0 (opaque 1) 50) 1%nat 50).
Proof.
  apply (later_entry_does_not_notify insertion
           {| queue := [jitItem 0 (opaque 1) 50]; changed := Some 1%nat;
              nextMu := Some (at_select (jitItem 0 (opaque 1) 50) 1%nat 50);
              closed := [0%nat]; made := 2; allocs := 1; clock := 0 |}
           (jitItem 1 (opaque 2) 70) (jitItem 0 (opaque 1) 50) []).
  - exists 0, [call_Schedule (opaque 1) 50; call_Next; run_loop], []. vm_compute. reflexivity.
  - discriminate.
  - reflexivity.
  - intros x [].
  - reflexivity.
Defined.

(** *** Every entry is delivered once *)

Lemma ref_eqb_eq (r r' : ref) : ref_eqb r r' = true -> r = r'.
Proof.
  destruct r, r'; simpl; try discriminate; intros H; apply Nat.eqb_eq in H; now subst.
Qed.

Lemma consumer_step_refs (srt : Sorter) (s s' : state) (e : event) (o : list output) :
  is_consumer e = true -> step srt s e = steps s' o ->
  allocs s' = allocs s /\ changed s' = changed s /\
  map self (deliveries o) ++ map self (queue s') = map self (queue s).
Proof.
  intros He. destruct e as [i | i t | | | | | | | d]; try discriminate; cbn.
  - now intros [= <- <-].
  - destruct (nextMu s); [discriminate|]. now intros [= <- <-].
  - destruct (nextMu s) as [[carried | ch | i ch t]|]; try discriminate.
    destruct (changed s) as [ch|] eqn:Hc.
    + destruct (queue s) as [|h tl] eqn:Hq.
      * rewrite (loop_body_empty carried s ch Hc Hq). cbn. intros [= <- <-]. cbn.
        now rewrite Hc, Hq.
      * rewrite (loop_body_head carried s ch h tl Hc Hq).
        destruct (Before (Time h) (clock s)); cbn; intros [= <- <-]; cbn;
          now rewrite ?Hc, ?Hq.
    + rewrite (loop_body_destroyed carried s Hc). cbn. intros [= <- <-]. cbn.
      now rewrite Hc.
  - destruct (nextMu s) as [[carried | ch | i ch t]|]; try discriminate;
      (destruct (is_closed ch s); [|discriminate]); now intros [= <- <-].
  - destruct (nextMu s) as [[carried | ch | i ch t]|]; try discriminate.
    destruct (t <=? clock s); [|discriminate].
    destruct (queue s) as [|h tl] eqn:Hq.
    + rewrite (timer_case_empty i s Hq). cbn. intros [= <- <-]. cbn. now rewrite Hq.
    + rewrite (timer_case_head i h tl s Hq).
      destruct (same i h) eqn:Hsame; cbn; intros [= <- <-]; cbn; rewrite ?Hq; auto.
      apply ref_eqb_eq in Hsame. now rewrite Hsame.
  - now intros [= <- <-].
Qed.

Lemma added_allocs (q' : list JITItem) (b : bool) (c : chan) (s : state) :
  allocs (added q' b c s) = allocs s.
Proof. now destruct b. Qed.

Lemma step_refs (srt : Sorter) (s s' : state) (e : event) (o : list output) :
  wf s -> changed s <> None -> is_Destroy e = false -> step srt s e = steps s' o ->
  changed s' <> None /\
  Permutation (map self (deliveries o) ++ map self (queue s'))
              (map self (queue s) ++ inserted (allocs s) [e]) /\
  forall es, inserted (allocs s) (e :: es) = inserted (allocs s) [e] ++ inserted (allocs s') es.
Proof.
  intros Hwf Hlive He Hstep.
  destruct (is_consumer e) eqn:Hcons.
  - destruct (consumer_step_refs srt s s' e o Hcons Hstep) as (Ha & Hc & Hq).
    split; [congruence|]. rewrite Hq, Ha.
    destruct e; try discriminate; cbn; rewrite app_nil_r; auto.
  - destruct (changed s) as [c|] eqn:Hc; [clear Hlive | contradiction].
    destruct e as [i | p t | | | | | | | d]; try discriminate; cbn in Hstep.
    + destruct (add_live srt i s c) as (q' & Hadd & Hperm & _);
        [apply Hwf | exact Hc | now apply Hwf |].
      unfold Add in Hstep. rewrite Hadd in Hstep. injection Hstep as <- <-.
      destruct (added_fields q' (head_changed (queue s) q') c s Hc) as (Hq & Hl & _).
      split; [exact Hl|]. rewrite Hq, added_allocs. cbn. split; [|reflexivity].
      rewrite <- Hperm, map_app. apply Permutation_refl.
    + set (s0 := set_allocs (S (allocs s)) s) in *.
      assert (Hwf0 : wf s0) by now apply wf_set_allocs.
      destruct (add_live srt (jitItem (allocs s) p t) s0 c) as (q' & Hadd & Hperm & _);
        [apply Hwf0 | exact Hc | now apply Hwf0 |].
      unfold Schedule, Add in Hstep. fold s0 in Hstep. rewrite Hadd in Hstep.
      injection Hstep as <- <-.
      destruct (added_fields q' (head_changed (queue s) q') c s0 Hc) as (Hq & Hl & _).
      split; [exact Hl|]. rewrite Hq, added_allocs. cbn. split; [|reflexivity].
      rewrite <- Hperm, map_app. apply Permutation_refl.
Qed.

Lemma exec_refs (srt : Sorter) (es : list event) (s s' : state) (o : list output) :
  wf s -> changed s <> None -> existsb is_Destroy es = false ->
  exec srt s es = steps s' o ->
  Permutation (map self (deliveries o) ++ map self (queue s'))
              (map self (queue s) ++ inserted (allocs s) es).
Proof.
  revert s o. induction es as [|e es IH]; intros s o Hwf Hlive Hes; cbn [exec].
  - intros [= <- <-]. cbn. now rewrite app_nil_r.
  - cbn in Hes. apply orb_false_iff in Hes as [He Hes].
    destruct (step srt s e) as [| |s1 o1] eqn:E; try discriminate.
    destruct (exec srt s1 es) as [| |s2 o2] eqn:E'; try discriminate.
    intros [= <- <-].
    destruct (step_refs srt s s1 e o1 Hwf Hlive He E) as (Hl1 & Hp1 & Hins).
    specialize (IH s1 o2 (step_wf srt s s1 e o1 Hwf E) Hl1 Hes E').
    rewrite Hins, deliveries_app, map_app, <- app_assoc.
    eapply perm_trans; [apply Permutation_app_head, IH|].
    rewrite !app_assoc. apply Permutation_app_tail. exact Hp1.
Qed.

(** X11: under any interleaving of producers, consumer and clock, as long as
    nobody calls [Destroy], every pointer handed to [Add] or allocated by
    [Schedule] is accounted for exactly once: it has been returned by one
    call of [Next] or it is still stored, never both and never twice. *)
Theorem every_entry_delivered_once (srt : Sorter) (now : instant) (es : list event)
    (s : state) (o : list output) :
  existsb is_Destroy es = false ->
  exec srt (NewJIT now) es = steps s o ->
  Permutation (map self (deliveries o) ++ map self (queue s)) (inserted 0 es).
Proof.
  intros Hes Hexec.
  apply (exec_refs srt es (NewJIT now) s o (wf_NewJIT now)); trivial. discriminate.
Qed.

Lemma every_entry_delivered_once_witness :
  Permutation
    (map self [jitItem 1 (opaque 2) 10] ++
     map self [mkJITItem (extern_at 7) 30 None; jitItem 0 (opaque 1) 50])
    (inserted 0 [call_Schedule (opaque 1) 50; call_Next; run_loop;
                 call_Schedule (opaque 2) 10; recv_changed; run_loop;
                 call_Add (mkJITItem (extern_at 7) 30 None); tick 10; recv_timer]).
Proof.
  apply (every_entry_delivered_once insertion 0
           [call_Schedule (opaque 1) 50; call_Next; run_loop;
            call_Schedule (opaque 2) 10; recv_changed; run_loop;
            call_Add (mkJITItem (extern_at 7) 30 None); tick 10; recv_timer]
           {| queue := [mkJITItem (extern_at 7) 30 None; jitItem 0 (opaque 1) 50];
              changed := Some 2%nat; nextMu := None;
              closed := [1%nat; 0%nat]; made := 3; allocs := 2; clock := 10 |}
           [Next_returns (Some (jitItem 1 (opaque 2) 10)) (from_item (opaque 2))]).
  - reflexivity.
  - vm_compute. reflexivity.
Defined.

(** *** Progress *)

Lemma same_trans (a b c : JITItem) : same a b = true -> same b c = true -> same a c = true.
Proof.
  unfold same. intros H1 H2. apply ref_eqb_eq in H1, H2. rewrite H1, H2.
  apply ref_eqb_refl.
Qed.

Lemma waits_ok_add (srt : Sorter) (i : JITItem) (s s' : state) :
  wf s -> waits_ok s -> add srt i s = Ok s' -> waits_ok s'.
Proof.
  intros Hwf Hw. pose proof Hw as [H0 H1 H2]. destruct (changed s) as [c|] eqn:Hc.
  2:{ rewrite add_destroyed by exact Hc. now intros [= <-]. }
  destruct (add_live srt i s c) as (q' & -> & Hperm & _);
    [apply Hwf | exact Hc | now apply Hwf |].
  intros [= <-].
  assert (Hne : q' <> []).
  { intros ->. apply Permutation_length in Hperm. rewrite length_app in Hperm.
    simpl in Hperm. lia. }
  assert (Hold : forall ch, captured (nextMu s) = Some ch -> (ch < made s)%nat).
  { intros ch Hch. destruct (wf_captured s Hwf ch Hch) as [E | Hin].
    - now apply (wf_made s Hwf).
    - now apply (wf_closed s Hwf). }
  unfold added. destruct (head_changed (queue s) q') eqn:Hhc; constructor; cbn; trivial.
  - intros ch Hp [= E]. specialize (Hold ch). rewrite Hp in Hold.
    specialize (Hold eq_refl). lia.
  - intros j ch t Hp [= E]. specialize (Hold ch). rewrite Hp in Hold.
    specialize (Hold eq_refl). lia.
  - intros ch Hp Hch. rewrite Hc in Hch. rewrite (H1 ch Hp Hch) in Hhc. discriminate.
  - intros j ch t Hp Hch. rewrite Hc in Hch.
    destruct (H2 j ch t Hp Hch) as (h & tl & Hq & Hsame). rewrite Hq in Hhc.
    destruct q' as [|b tl']; [contradiction|]. exists b, tl'. split; [reflexivity|].
    cbn in Hhc. apply negb_false_iff in Hhc. exact (same_trans j h b Hsame Hhc).
Qed.

Lemma waits_ok_step (srt : Sorter) (s s' : state) (e : event) (o : list output) :
  wf s -> waits_ok s -> step srt s e = steps s' o -> waits_ok s'.
Proof.
  intros Hwf Hw. pose proof Hw as [H0 H1 H2].
  destruct e as [i | i t | | | | | | | d]; cbn.
  - unfold Add. destruct (add srt i s) as [s1|p] eqn:E; cbn; [|discriminate].
    intros [= <- _]. exact (waits_ok_add srt i s s1 Hwf Hw E).
  - unfold Schedule, Add.
    destruct (add srt (jitItem (allocs s) i t) (set_allocs (S (allocs s)) s)) as [s1|p] eqn:E;
      cbn; [|discriminate].
    intros [= <- _]. eapply waits_ok_add; [| |exact E].
    + now apply wf_set_allocs.
    + constructor; cbn; trivial.
  - now intros [= <- _].
  - destruct (Destroy s) as [s1|p] eqn:E; cbn; [|discriminate]. intros [= <- _].
    destruct (Destroy_result s s1 E) as [Hc _].
    constructor; intros; congruence.
  - destruct (nextMu s); [discriminate|]. intros [= <- _].
    constructor; cbn; intros; discriminate.
  - destruct (nextMu s) as [[carried | ch | i ch t]|] eqn:Hp; try discriminate.
    destruct (changed s) as [ch|] eqn:Hc.
    + destruct (queue s) as [|h tl] eqn:Hq.
      * rewrite (loop_body_empty carried s ch Hc Hq). cbn. intros [= <- _].
        destruct carried as [j|].
        -- exfalso. apply (H0 j); [reflexivity | discriminate | reflexivity].
        -- constructor; cbn; intros; try discriminate. exact Hq.
      * rewrite (loop_body_head carried s ch h tl Hc Hq).
        destruct (Before (Time h) (clock s)); cbn; intros [= <- _].
        -- constructor; cbn; intros; discriminate.
        -- constructor; cbn; intros.
           ++ rewrite Hq. discriminate.
           ++ discriminate.
           ++ match goal with H : Some _ = Some _ |- _ => injection H as <- _ _ end.
              exists h, tl. split; [exact Hq | apply same_refl].
    + rewrite (loop_body_destroyed carried s Hc). cbn. intros [= <- _].
      constructor; cbn; intros; discriminate.
  - destruct (nextMu s) as [[carried | ch | i ch t]|] eqn:Hp; try discriminate;
      (destruct (is_closed ch s); [|discriminate]); intros [= <- _];
      constructor; cbn; intros; try discriminate.
    match goal with H : Some _ = Some _ |- _ => injection H as <- end.
    apply (H0 i); trivial.
  - destruct (nextMu s) as [[carried | ch | i ch t]|] eqn:Hp; try discriminate.
    destruct (t <=? clock s); [|discriminate].
    destruct (queue s) as [|h tl] eqn:Hq.
    + rewrite (timer_case_empty i s Hq). cbn. intros [= <- _].
      constructor; cbn; intros; try discriminate.
      exfalso. apply (H0 i); trivial.
    + rewrite (timer_case_head i h tl s Hq).
      destruct (same i h); cbn; intros [= <- _]; constructor; cbn; intros;
        try discriminate.
      rewrite Hq. discriminate.
  - intros [= <- _]. constructor; cbn; trivial.
Qed.

Lemma waits_ok_reachable (srt : Sorter) (s : state) : reachable srt s -> waits_ok s.
Proof.
  intros (now & es & o & Hexec).
  assert (H : forall es s0 s1 o, wf s0 -> waits_ok s0 -> exec srt s0 es = steps s1 o ->
              waits_ok s1).
  { clear. intros es. induction es as [|e es IH]; intros s0 s1 o Hwf Hw; cbn.
    - now intros [= <- _].
    - destruct (step srt s0 e) as [| |s2 o2] eqn:E; try discriminate.
      destruct (exec srt s2 es) as [| |s3 o3] eqn:E'; try discriminate.
      intros [= <- _]. apply (IH s2 s3 o3); trivial.
      + exact (step_wf srt s0 s2 e o2 Hwf E).
      + exact (waits_ok_step srt s0 s2 e o2 Hwf Hw E). }
  apply (H es (NewJIT now) s o); trivial; [apply wf_NewJIT|].
  constructor; cbn; intros; discriminate.
Qed.

Lemma exec_snoc_consumer (es es' : list event) :
  forallb is_consumer es = true -> forallb is_consumer es' = true ->
  forallb is_consumer (es ++ es') = true.
Proof. intros H1 H2. rewrite forallb_app. now rewrite H1, H2. Qed.

Lemma take_delivers (srt : Sorter) (s : state) (carried : option JITItem) (c : chan)
    (h : JITItem) (tl : list JITItem) :
  nextMu s = Some (at_loop carried) -> changed s = Some c -> queue s = h :: tl ->
  exists s',
    exec srt s (take h s) = steps s' [Next_returns (Some h) (unwrap h)] /\
    queue s' = tl /\ nextMu s' = None.
Proof.
  intros Hp Hc Hq. unfold take, Before.
  destruct (Z.ltb_spec (Time h) (clock s)) as [Hlt | Hge].
  - eexists. rewrite (exec_cons srt s _ _ _ _ (step_run_loop_pop srt s carried c h tl Hp Hc Hq Hlt)).
    cbn. auto.
  - set (s1 := set_nextMu (Some (at_select h c (Time h))) s).
    set (d := Z.to_nat (Time h - clock s)).
    set (s2 := set_clock (clock s1 + Z.of_nat d) s1).
    assert (H1 : step srt s run_loop = steps s1 [])
      by exact (step_run_loop_wait srt s carried c h tl Hp Hc Hq Hge).
    assert (H2 : step srt s1 (tick d) = steps s2 []) by reflexivity.
    assert (H3 : step srt s2 recv_timer =
                 steps (set_nextMu None (set_queue tl s2)) [Next_returns (Some h) (unwrap h)]).
    { apply (step_recv_timer_pop srt s2 h h c (Time h) tl); trivial; [|apply same_refl].
      cbn. unfold d. lia. }
    eexists. rewrite (exec_cons srt s s1 _ _ [] H1), (exec_cons srt s1 s2 _ _ [] H2),
      (exec_cons srt s2 _ _ _ _ H3). cbn. auto.
Qed.

Lemma take_is_consumer (h : JITItem) (s : state) : forallb is_consumer (take h s) = true.
Proof. unfold take. now destruct (Before (Time h) (clock s)). Qed.

(** X12: [Next] cannot get stuck on a live queue that holds an entry.  From
    wherever the consumer stands, with no help from any producer, there are
    steps of the consumer and of the clock after which its call of [Next]
    returns an entry [==] to the head and the head is gone from the
    queue: a notification never leaves it on a channel nobody will close,
    and a timer it waits for always fires. *)
Theorem Next_makes_progress (srt : Sorter) (s : state) (h : JITItem) (tl : list JITItem) :
  reachable srt s -> changed s <> None -> queue s = h :: tl ->
  exists es s' i,
    forallb is_consumer es = true /\
    exec srt s es = steps s' [Next_returns (Some i) (unwrap i)] /\
    same i h = true /\ queue s' = tl /\ nextMu s' = None.
Proof.
  intros Hr Hlive Hq.
  pose proof (waits_ok_reachable srt s Hr) as Hw. apply reachable_wf in Hr.
  destruct (changed s) as [c|] eqn:Hc; [clear Hlive | contradiction].
  assert (Hloop : forall s0 carried,
            nextMu s0 = Some (at_loop carried) -> changed s0 = Some c -> queue s0 = h :: tl ->
            forall pre o0, forallb is_consumer pre = true -> exec srt s pre = steps s0 o0 ->
            o0 = [] ->
            exists es s' i,
              forallb is_consumer es = true /\
              exec srt s es = steps s' [Next_returns (Some i) (unwrap i)] /\
              same i h = true /\ queue s' = tl /\ nextMu s' = None).
  { intros s0 carried Hp0 Hc0 Hq0 pre o0 Hpre Hexec ->.
    destruct (take_delivers srt s0 carried c h tl Hp0 Hc0 Hq0) as (s' & Htake & Hq' & Hn').
    exists (pre ++ take h s0), s', h. split; [|split; [|split; [apply same_refl | auto]]].
    - apply exec_snoc_consumer; [exact Hpre | apply take_is_consumer].
    - rewrite exec_app, Hexec, Htake. reflexivity. }
  destruct (nextMu s) as [[carried | ch | i ch t]|] eqn:Hp.
  - apply (Hloop s carried Hp Hc Hq [] []); reflexivity.
  - assert (Hcl : is_closed ch s = true).
    { destruct (wf_captured s Hr ch) as [E | Hin]; [now rewrite Hp | | now apply is_closed_In].
      rewrite (waits_recv s Hw ch Hp E) in Hq. discriminate. }
    apply (Hloop (set_nextMu (Some (at_loop None)) s) None eq_refl Hc Hq [recv_changed] []);
      trivial.
    cbn. now rewrite Hp, Hcl.
  - destruct (is_closed ch s) eqn:Hcl.
    + apply (Hloop (set_nextMu (Some (at_loop (Some i))) s) (Some i) eq_refl Hc Hq
               [recv_changed] []); trivial.
      cbn. now rewrite Hp, Hcl.
    + assert (E : changed s = Some ch).
      { destruct (wf_captured s Hr ch) as [E | Hin]; [now rewrite Hp | exact E |].
        apply is_closed_In in Hin. congruence. }
      destruct (waits_select s Hw i ch t Hp E) as (h' & tl' & Hq' & Hsame).
      rewrite Hq in Hq'. injection Hq' as <- <-.
      set (d := Z.to_nat (t - clock s)).
      set (s1 := set_clock (clock s + Z.of_nat d) s).
      assert (H1 : step srt s (tick d) = steps s1 []) by reflexivity.
      assert (H2 : step srt s1 recv_timer =
                   steps (set_nextMu None (set_queue tl s1)) [Next_returns (Some i) (unwrap i)]).
      { apply (step_recv_timer_pop srt s1 i h ch t tl); trivial. cbn. unfold d. lia. }
      exists [tick d; recv_timer], (set_nextMu None (set_queue tl s1)), i.
      split; [reflexivity|].
      rewrite (exec_cons srt s s1 _ _ [] H1), (exec_cons srt s1 _ _ _ _ H2). cbn. auto.
  - apply (Hloop (set_nextMu (Some (at_loop None)) s) None eq_refl Hc Hq [call_Next] []);
      trivial.
    cbn. now rewrite Hp.
Qed.

Lemma Next_makes_progress_witness :
  exists es s' i,
    forallb is_consumer es = true /\
    exec insertion
      {| queue := [jitItem 1 (opaque 2) 10; jitItem 0 (opaque 1) 50];
         changed := Some 2%nat;
         nextMu := Some (at_select (jitItem 0 (opaque 1) 50) 1%nat 50);
         closed := [1%nat; 0%nat]; made := 3; allocs := 2; clock := 0 |} es =
      steps s' [Next_returns (Some i) (unwrap i)] /\
    same i (jitItem 1 (opaque 2) 10) = true /\
    queue s' = [jitItem 0 (opaque 1) 50] /\ nextMu s' = None.
Proof.
  apply (Next_makes_progress insertion
           {| queue := [jitItem 1 (opaque 2) 10; jitItem 0 (opaque 1) 50];
              changed := Some 2%nat;
              nextMu := Some (at_select (jitItem 0 (opaque 1) 50) 1%nat 50);
              closed := [1%nat; 0%nat]; made := 3; allocs := 2; clock := 0 |}).
  - exists 0, [call_Schedule (opaque 1) 50; call_Next; run_loop; call_Schedule (opaque 2) 10], [].
    vm_compute. reflexivity.
  - discriminate.
  - reflexivity.
Defined.

(** ** The [sort.Interface] of a [jitSlice] *)

Lemma length_update {A : Type} (l : list A) (k : nat) (x : A) :
  length (update l k x) = length l.
Proof.
  revert k. induction l as [|y l IH]; intros [|k]; simpl; trivial. now rewrite IH.
Qed.

Lemma nth_error_update_eq {A : Type} (l : list A) (k : nat) (x : A) :
  (k < length l)%nat -> nth_error (update l k x) k = Some x.
Proof.
  revert k. induction l as [|y l IH]; intros [|k] Hk; simpl in *; try lia; trivial.
  apply IH. lia.
Qed.

Lemma nth_error_update_neq {A : Type} (l : list A) (k k' : nat) (x : A) :
  k <> k' -> nth_error (update l k x) k' = nth_error l k'.
Proof.
  revert k k'. induction l as [|y l IH]; intros [|k] [|k'] Hk; simpl; trivial; try lia.
  apply IH. lia.
Qed.

Lemma index_Ok {A : Type} (l : list A) (k : nat) :
  (k < length l)%nat -> exists x, index l k = Ok x /\ nth_error l k = Some x.
Proof.
  intros Hk. unfold index. destruct (nth_error l k) as [x|] eqn:E; [eauto|].
  apply nth_error_None in E. lia.
Qed.

Lemma index_Panic {A : Type} (l : list A) (k : nat) :
  (length l <= k)%nat -> index l k = Panic index_out_of_range.
Proof. intros Hk. unfold index. apply nth_error_None in Hk. now rewrite Hk. Qed.

Lemma update_perm_cons {A : Type} (l : list A) (j : nat) (a b : A) :
  nth_error l j = Some b -> Permutation (a :: l) (b :: update l j a).
Proof.
  revert j. induction l as [|y l IH]; intros [|j] Hj; simpl in *; try discriminate.
  - injection Hj as ->. apply perm_swap.
  - eapply perm_trans; [apply perm_swap|].
    eapply perm_trans; [apply perm_skip, (IH j Hj)|]. apply perm_swap.
Qed.

Lemma update_twice_perm {A : Type} (l : list A) (i j : nat) (a b : A) :
  (i < j)%nat -> nth_error l i = Some a -> nth_error l j = Some b ->
  Permutation l (update (update l i b) j a) /\
  Permutation l (update (update l j a) i b).
Proof.
  revert i j. induction l as [|y l IH]; intros [|i] [|j] Hij Hi Hj; simpl in *;
    try discriminate; try lia.
  - injection Hi as ->. split; now apply update_perm_cons.
  - destruct (IH i j) as [H1 H2]; trivial; [lia|]. split; now apply perm_skip.
Qed.

Lemma update_same {A : Type} (l : list A) (k : nat) (x : A) :
  nth_error l k = Some x -> update l k x = l.
Proof.
  revert k. induction l as [|y l IH]; intros [|k] Hk; simpl in *; try discriminate.
  - now injection Hk as ->.
  - now rewrite IH.
Qed.

(** X13: [Swap] exchanges the two positions and nothing else: for indices in
    range it returns a rearrangement of the slice of the same length, with
    the entries of [i] and [j] exchanged and every other position as it
    was, and a second [Swap] of the same positions restores the slice.
    With an index out of range it panics. *)
Theorem Swap_exchanges (s : list JITItem) (i j : nat) :
  ((i < jitSlice_Len s)%nat -> (j < jitSlice_Len s)%nat ->
   exists s',
     jitSlice_Swap s i j = Ok s' /\ jitSlice_Len s' = jitSlice_Len s /\
     Permutation s s' /\
     nth_error s' i = nth_error s j /\ nth_error s' j = nth_error s i /\
     (forall k, k <> i -> k <> j -> nth_error s' k = nth_error s k) /\
     jitSlice_Swap s' i j = Ok s) /\
  ((jitSlice_Len s <= i)%nat \/ (jitSlice_Len s <= j)%nat ->
   jitSlice_Swap s i j = Panic index_out_of_range).
Proof.
  unfold jitSlice_Len. split.
  - intros Hi Hj.
    destruct (index_Ok s i Hi) as (a & Ha & Hna).
    destruct (index_Ok s j Hj) as (b & Hb & Hnb).
    set (s' := update (update s i b) j a).
    assert (Hlen : length s' = length s) by (unfold s'; now rewrite !length_update).
    assert (Hsi : nth_error s' i = Some b).
    { unfold s'. destruct (Nat.eq_dec i j) as [->|Hne].
      - rewrite nth_error_update_eq by (rewrite length_update; lia). congruence.
      - rewrite nth_error_update_neq by auto. now apply nth_error_update_eq. }
    assert (Hsj : nth_error s' j = Some a).
    { unfold s'. apply nth_error_update_eq. rewrite length_update. lia. }
    assert (Hk : forall k, k <> i -> k <> j -> nth_error s' k = nth_error s k).
    { intros k Hki Hkj. unfold s'. rewrite !nth_error_update_neq by auto. reflexivity. }
    exists s'. unfold jitSlice_Swap. rewrite Ha, Hb. cbn [bind].
    split; [reflexivity|]. split; [exact Hlen|]. split; [|split; [congruence|split; [congruence|split; [exact Hk|]]]].
    + unfold s'. destruct (Nat.lt_trichotomy i j) as [Hlt | [-> | Hgt]].
      * now apply (update_twice_perm s i j a b).
      * assert (a = b) by congruence. subst b.
        rewrite (update_same s j a Hna), (update_same s j a Hna). apply Permutation_refl.
      * now apply (update_twice_perm s j i b a).
    + unfold index. rewrite Hsi, Hsj. cbn [bind]. f_equal.
      apply nth_error_ext. intros k.
      destruct (Nat.eq_dec k j) as [->|Hkj].
      * rewrite nth_error_update_eq by (rewrite length_update; lia). congruence.
      * rewrite nth_error_update_neq by auto.
        destruct (Nat.eq_dec k i) as [->|Hki].
        -- rewrite nth_error_update_eq by lia. congruence.
        -- rewrite nth_error_update_neq by auto. now apply Hk.
  - intros [Hi | Hj]; unfold jitSlice_Swap, index.
    + apply nth_error_None in Hi. rewrite Hi. now destruct (nth_error s j).
    + apply nth_error_None in Hj. now rewrite Hj.
Qed.

Lemma jitSlice_Less_at (s : list JITItem) (i j : nat) (a b : JITItem) :
  nth_error s i = Some a -> nth_error s j = Some b ->
  jitSlice_Less s i j = Ok (Time a <? Time b).
Proof. intros Ha Hb. unfold jitSlice_Less, index. now rewrite Ha, Hb. Qed.

Lemma jitSlice_Less_Ok (s : list JITItem) (i j : nat) (r : bool) :
  jitSlice_Less s i j = Ok r ->
  exists a b, nth_error s i = Some a /\ nth_error s j = Some b /\ r = (Time a <? Time b).
Proof.
  unfold jitSlice_Less, index.
  destruct (nth_error s i) as [a|]; [|discriminate].
  destruct (nth_error s j) as [b|]; [|discriminate].
  cbn. intros [= <-]. eauto.
Qed.

(** X14: [Less] is the strict order [sort.Sort] asks for.  On indices in range
    it compares due times strictly: it is irreflexive and transitive, and
    being unordered either way (equal due times) is transitive too.  A
    slice in which no position is [Less] than the one before it is exactly
    a slice sorted by due time.  With an index out of range it panics. *)
Theorem Less_is_a_strict_weak_order (s : list JITItem) :
  (forall i, jitSlice_Less s i i <> Ok true) /\
  (forall i j k, jitSlice_Less s i j = Ok true -> jitSlice_Less s j k = Ok true ->
                 jitSlice_Less s i k = Ok true) /\
  (forall i j k,
     jitSlice_Less s i j = Ok false -> jitSlice_Less s j i = Ok false ->
     jitSlice_Less s j k = Ok false -> jitSlice_Less s k j = Ok false ->
     jitSlice_Less s i k = Ok false /\ jitSlice_Less s k i = Ok false) /\
  (adjacent_sorted s <->
   forall k, (S k < jitSlice_Len s)%nat -> jitSlice_Less s (S k) k = Ok false) /\
  (forall i j, (jitSlice_Len s <= i)%nat \/ (jitSlice_Len s <= j)%nat ->
               jitSlice_Less s i j = Panic index_out_of_range).
Proof.
  split; [|split; [|split; [|split]]].
  - intros i H. destruct (jitSlice_Less_Ok s i i true H) as (a & b & Ha & Hb & E).
    assert (a = b) by congruence. subst b. symmetry in E. apply Z.ltb_lt in E. lia.
  - intros i j k H1 H2.
    destruct (jitSlice_Less_Ok s i j true H1) as (a & b & Ha & Hb & E1).
    destruct (jitSlice_Less_Ok s j k true H2) as (b' & c & Hb' & Hc & E2).
    assert (b' = b) by congruence. subst b'.
    rewrite (jitSlice_Less_at s i k a c Ha Hc). f_equal.
    symmetry in E1, E2. apply Z.ltb_lt in E1, E2. apply Z.ltb_lt. lia.
  - intros i j k H1 H2 H3 H4.
    destruct (jitSlice_Less_Ok s i j false H1) as (a & b & Ha & Hb & E1).
    destruct (jitSlice_Less_Ok s j k false H3) as (b' & c & Hb' & Hc & E3).
    assert (b' = b) by congruence. subst b'.
    rewrite (jitSlice_Less_at s j i b a Hb Ha) in H2.
    rewrite (jitSlice_Less_at s k j c b Hc Hb) in H4.
    injection H2 as H2. injection H4 as H4.
    symmetry in E1, E3. apply Z.ltb_ge in E1, E3, H2, H4.
    rewrite (jitSlice_Less_at s i k a c Ha Hc), (jitSlice_Less_at s k i c a Hc Ha).
    split; f_equal; apply Z.ltb_ge; lia.
  - unfold jitSlice_Len. split.
    + intros Hs k Hk.
      destruct (nth_error s k) as [a|] eqn:Ha; [|apply nth_error_None in Ha; lia].
      destruct (nth_error s (S k)) as [b|] eqn:Hb; [|apply nth_error_None in Hb; lia].
      rewrite (jitSlice_Less_at s (S k) k b a Hb Ha). f_equal.
      apply Z.ltb_ge. exact (Hs k a b Ha Hb).
    + intros H k a b Ha Hb.
      assert (Hk : (S k < length s)%nat).
      { apply nth_error_Some. congruence. }
      specialize (H k Hk). rewrite (jitSlice_Less_at s (S k) k b a Hb Ha) in H.
      injection H as H. now apply Z.ltb_ge in H.
  - unfold jitSlice_Len, jitSlice_Less, index. intros i j [Hi | Hj].
    + apply nth_error_None in Hi. now rewrite Hi.
    + apply nth_error_None in Hj. rewrite Hj. now destruct (nth_error s i).
Qed.

End JIT.
